(** * JSONComparator: the diff engine of [src/JSONComparator.tsx]

    A shallow embedding of the two pure functions of the component, the
    string highlighter [getStringDiffSpans] and the structural differ
    [compareObjects], and of the handler [handleCompare] that drives them,
    followed by the properties the specification states about them. *)

From Stdlib Require Import ZArith Ascii String DecimalString DecimalNat Lia.
From stdpp Require Import base option list strings.

Set Warnings "-register-all".
Local Open Scope Z_scope.

(** ** JavaScript strings

    A string is a sequence of code units; the embedding uses [string] and
    reads it as its list of characters.  Lengths and indices are numbers in
    the source and integers here. *)

Module JsString.

Definition chars (s : string) : list ascii := String.list_ascii_of_string s.
Definition of_chars (l : list ascii) : string := String.string_of_list_ascii l.

(** [s.length] *)
Definition length (s : string) : Z := Z.of_nat (List.length (chars s)).

(** [s[i]]: the character at index [i], [undefined] (here [None]) when
    [i] is not an index of [s]. *)
Definition at_ (s : string) (i : Z) : option ascii :=
  if i <? 0 then None else chars s !! Z.to_nat i.

(** The relative-index resolution of [String.prototype.slice]: a negative
    argument counts from the end, and the result is clamped to
    [0 .. len]. *)
Definition resolve (len x : Z) : Z :=
  if x <? 0 then Z.max (len + x) 0 else Z.min x len.

(** [s.slice(start, end)], with [None] for an [undefined] end. *)
Definition slice (s : string) (start : Z) (end_ : option Z) : string :=
  let len := length s in
  let from := resolve len start in
  let to := match end_ with None => len | Some e => resolve len e end in
  if from >=? to then ""%string
  else of_chars (take (Z.to_nat (to - from)) (drop (Z.to_nat from) (chars s))).

(** [n || undefined] on a number: [0] is falsy. *)
Definition or_undefined (n : Z) : option Z :=
  if n =? 0 then None else Some n.

(** [s || ""] on a string: the empty string is falsy. *)
Definition or_empty (s : string) : string :=
  if decide (s = ""%string) then ""%string else s.

(** [a === b] on two characters read by index (either may be
    [undefined]). *)
Definition strict_eq (a b : option ascii) : bool := bool_decide (a = b).

End JsString.

(** ** Loops

    [while (cond) body] over a state [St].  The recursion is on a budget of
    iterations; [None] means the budget ran out before the guard became
    false. *)

Fixpoint while_ {St : Type} (fuel : nat) (cond : St → bool) (body : St → St)
    (s : St) : option St :=
  match fuel with
  | O => None
  | S fuel' => if cond s then while_ fuel' cond body (body s) else Some s
  end.

(** ** The string highlighter *)

(** The text of the three inner [<span>]s of a node. *)
Record SpanNode := mkSpanNode {
  pre : string;
  middle : string;
  post : string
}.

Record DiffSpans := mkDiffSpans {
  oldNode : SpanNode;
  newNode : SpanNode
}.

Definition minLen (oldStr newStr : string) : Z :=
  Z.min (JsString.length oldStr) (JsString.length newStr).

(** [while (prefix < minLen && oldStr[prefix] === newStr[prefix]) prefix++],
    from [prefix = 0].  The guard fails after at most [minLen] increments,
    so [minLen + 1] evaluations of the guard are budgeted. *)
Definition prefixLoop (oldStr newStr : string) : option Z :=
  let minLen := minLen oldStr newStr in
  while_ (S (Z.to_nat minLen))
    (λ prefix, (prefix <? minLen) &&
       JsString.strict_eq (JsString.at_ oldStr prefix) (JsString.at_ newStr prefix))
    Z.succ 0.

(** [while (suffix < minLen - prefix &&
           oldStr[oldStr.length - 1 - suffix] === newStr[newStr.length - 1 - suffix])
      suffix++], from [suffix = 0]. *)
Definition suffixLoop (oldStr newStr : string) (prefix : Z) : option Z :=
  let minLen := minLen oldStr newStr in
  while_ (S (Z.to_nat (minLen - prefix)))
    (λ suffix, (suffix <? minLen - prefix) &&
       JsString.strict_eq
         (JsString.at_ oldStr (JsString.length oldStr - 1 - suffix))
         (JsString.at_ newStr (JsString.length newStr - 1 - suffix)))
    Z.succ 0.

Definition getStringDiffSpans (oldStr newStr : string) : option DiffSpans :=
  prefix ← prefixLoop oldStr newStr;
  suffix ← suffixLoop oldStr newStr prefix;
  let oldMiddle :=
    JsString.slice oldStr prefix
      (JsString.or_undefined (JsString.length oldStr - suffix)) in
  let newMiddle :=
    JsString.slice newStr prefix
      (JsString.or_undefined (JsString.length newStr - suffix)) in
  let pre := JsString.slice oldStr 0 (Some prefix) in
  let post :=
    JsString.or_empty
      (JsString.slice oldStr (JsString.length oldStr - suffix) None) in
  Some {| oldNode := mkSpanNode pre oldMiddle post;
          newNode := mkSpanNode pre newMiddle post |}.

(** The text a node displays: its three spans in order. *)
Definition text (n : SpanNode) : string :=
  pre n +:+ middle n +:+ post n.

(** The slice [s[i : j]] of the specification: the characters of [s] from
    index [i] up to index [j], the latter excluded. *)
Definition sliceBetween (s : string) (i j : Z) : string :=
  JsString.of_chars
    (drop (Z.to_nat i) (take (Z.to_nat j) (JsString.chars s))).

(** ** Values

    [JsonValue] is imported from [./types], which is not part of the
    sources at hand; the specification gives it as null, boolean, number,
    string, array or object.  The differ is written against that type, but
    the [in] operator and the property reads it performs also see what the
    prototype chain supplies (for instance ["constructor"] or ["length"]),
    so the values of the embedding are the JSON values together with
    [undefined] and the built-in objects and functions of the runtime.

    Numbers are taken up to [===]: the two zeros are one number, and [NaN]
    does not occur in a decoded document, so [===] on numbers is equality.
    An object lists its own enumerable properties in the order in which
    [Object.keys] reports them. *)

(** The answers of [typeof]. *)
Inductive TypeTag :=
  TUndefined | TObject | TBoolean | TNumber | TString | TFunction.

Global Instance TypeTag_eq_dec : EqDecision TypeTag.
Proof. solve_decision. Defined.

Inductive DiffType := added | removed | modified | equal.

Global Instance DiffType_eq_dec : EqDecision DiffType.
Proof. solve_decision. Defined.

Section Values.
Context {number host : Type}.

(** Modelled from the spec: the type [JsonValue] of [./types], here the
    constructors [VNull], [VBool], [VNumber], [VString], [VArray] and
    [VObject]; [VUndefined] and [VHost] are the other values a property
    read can answer. *)
Inductive Value :=
| VUndefined
| VNull
| VBool (b : bool)
| VNumber (n : number)
| VString (s : string)
| VArray (elems : list Value)
| VObject (props : list (string * Value))
| VHost (h : host).

(** The nesting depth of arrays and objects. *)
Fixpoint height (v : Value) : nat :=
  match v with
  | VArray elems => S (foldr Nat.max 0%nat (map height elems))
  | VObject props => S (foldr Nat.max 0%nat (map (λ p, height p.2) props))
  | _ => 0%nat
  end.

(** The key of an array index: its decimal numeral. *)
Definition indexKey (i : nat) : string :=
  DecimalString.NilEmpty.string_of_uint (Nat.to_uint i).

(** The own enumerable string-keyed properties of a value, in the order of
    [Object.keys].  The properties of the built-in prototype objects are
    not enumerable. *)
Definition ownProps (v : Value) : list (string * Value) :=
  match v with
  | VArray elems => imap (λ i x, (indexKey i, x)) elems
  | VObject props => props
  | _ => []
  end.

Fixpoint lookupOwn (key : string) (props : list (string * Value)) : option Value :=
  match props with
  | [] => None
  | (k, v) :: rest => if decide (k = key) then Some v else lookupOwn key rest
  end.

(** [interface DiffResult]; an optional field that is left out is [None]. *)
Record DiffResult := mkDiffResult {
  path : string;
  type : DiffType;
  oldValue : option Value;
  newValue : option Value
}.

End Values.

Global Arguments Value : clear implicits.
Global Arguments DiffResult : clear implicits.

(** ** The runtime

    What the component uses and does not define: the properties a value
    has besides its own enumerable ones (inherited through the prototype
    chain, or own and not enumerable, such as the [length] of an array),
    [JSON.parse] and [String.prototype.trim].  A property found this way is
    never itself a decoded array or object: it is a primitive or a
    built-in. *)

Inductive Thrown := JsError (message : string) | NotAnError.

Inductive ParseOutcome {number host : Type} :=
| Parsed (v : Value number host)
| Throws (e : Thrown).
Global Arguments ParseOutcome : clear implicits.

Class Runtime (number host : Type) := {
  number_eq_dec :: EqDecision number;
  host_eq_dec :: EqDecision host;
  (** [typeof h === "function"] *)
  callable : host → bool;
  inherited : Value number host → string → option (Value number host);
  inherited_height v key x : inherited v key = Some x → height x = 0%nat;
  JSON_parse : string → ParseOutcome number host;
  trim : string → string
}.

(** ** The structural differ *)

Section Differ.
Context {number host : Type} `{!Runtime number host}.

Abbreviation Value := (Value number host).
Abbreviation DiffResult := (DiffResult number host).

Definition typeof (v : Value) : TypeTag :=
  match v with
  | VUndefined => TUndefined
  | VNull => TObject
  | VBool _ => TBoolean
  | VNumber _ => TNumber
  | VString _ => TString
  | VArray _ | VObject _ => TObject
  | VHost h => if callable h then TFunction else TObject
  end.

(** [a === b].  Two arrays or objects are [===] only when they are the
    same reference; the differ evaluates [===] and [!==] only where one
    operand is [null] or not of type ["object"], where no two references to
    decoded values are compared, and the embedding, which has no
    references, answers [false] there. *)
Definition strictEq (a b : Value) : bool :=
  match a, b with
  | VUndefined, VUndefined => true
  | VNull, VNull => true
  | VBool x, VBool y => bool_decide (x = y)
  | VNumber x, VNumber y => bool_decide (x = y)
  | VString x, VString y => bool_decide (x = y)
  | VHost x, VHost y => bool_decide (x = y)
  | _, _ => false
  end.

(** [typeof v === "object" && v !== null] *)
Definition isObject (v : Value) : bool :=
  bool_decide (typeof v = TObject) && negb (strictEq v VNull).

(** [Object.keys(obj)] *)
Definition Object_keys (obj : Value) : list string := (ownProps obj).*1.

(** The property [key] of [obj], own or supplied by the runtime. *)
Definition property (obj : Value) (key : string) : option Value :=
  match lookupOwn key (ownProps obj) with
  | Some v => Some v
  | None => inherited obj key
  end.

(** [key in obj] *)
Definition hasProperty (key : string) (obj : Value) : bool :=
  bool_decide (is_Some (property obj key)).

(** [obj[key]] *)
Definition get (obj : Value) (key : string) : Value :=
  default VUndefined (property obj key).

(** [new Set(keys)]: the keys in the order of their first insertion. *)
Definition Set_add (s : list string) (key : string) : list string :=
  if decide (key ∈ s) then s else s ++ [key].

Definition newSet (keys : list string) : list string :=
  foldl Set_add [] keys.

(** [xs.forEach(f)], for a callback that updates a state and may fail. *)
Definition forEach {A St : Type} (xs : list A) (f : A → St → option St)
    (s : St) : option St :=
  foldl (λ acc x, acc ≫= f x) (Some s) xs.

(** [path || "root"] *)
Definition pathOrRoot (path : string) : string :=
  if decide (path = ""%string) then "root"%string else path.

(** [path ? `${path}.${key}` : key] *)
Definition childPath (path key : string) : string :=
  if decide (path = ""%string) then key else path +:+ "." +:+ key.

(** The records one iteration of the [forEach] callback pushes for [key];
    [recur] is the recursive call. *)
Definition visitKey (recur : Value → Value → string → option (list DiffResult))
    (obj1 obj2 : Value) (path key : string) : option (list DiffResult) :=
  let newPath := childPath path key in
  let hasKey1 := hasProperty key obj1 in
  let hasKey2 := hasProperty key obj2 in
  if negb hasKey1 then
    Some [ {| path := newPath; type := added;
              oldValue := None; newValue := Some (get obj2 key) |} ]
  else if negb hasKey2 then
    Some [ {| path := newPath; type := removed;
              oldValue := Some (get obj1 key); newValue := None |} ]
  else
    let val1 := get obj1 key in
    let val2 := get obj2 key in
    if isObject val1 && isObject val2 then
      recur val1 val2 newPath
    else if negb (strictEq val1 val2) then
      Some [ {| path := newPath; type := modified;
                oldValue := Some val1; newValue := Some val2 |} ]
    else
      Some [ {| path := newPath; type := equal;
                oldValue := Some val1; newValue := Some val2 |} ].

(** The body of [compareObjects]. *)
Definition compareBody (recur : Value → Value → string → option (list DiffResult))
    (obj1 obj2 : Value) (path : string) : option (list DiffResult) :=
  if strictEq obj1 VNull || strictEq obj2 VNull
     || negb (bool_decide (typeof obj1 = TObject))
     || negb (bool_decide (typeof obj2 = TObject))
  then
    if negb (strictEq obj1 obj2) then
      Some [ {| path := pathOrRoot path; type := modified;
                oldValue := Some obj1; newValue := Some obj2 |} ]
    else
      Some [ {| path := pathOrRoot path; type := equal;
                oldValue := Some obj1; newValue := Some obj2 |} ]
  else
    let keys1 := Object_keys obj1 in
    let keys2 := Object_keys obj2 in
    let allKeys := newSet (keys1 ++ keys2) in
    forEach allKeys
      (λ key results,
         pushed ← visitKey recur obj1 obj2 path key;
         Some (results ++ pushed))
      [].

(** [compareObjects], with a budget on the depth of the recursion; [None]
    means the budget was not enough. *)
Fixpoint compareObjectsFuel (fuel : nat) (obj1 obj2 : Value) (path : string)
    : option (list DiffResult) :=
  match fuel with
  | O => None
  | S fuel' => compareBody (compareObjectsFuel fuel') obj1 obj2 path
  end.

(** The recursion descends one level of nesting per call, so the deeper of
    the two documents bounds its depth. *)
Definition compareObjects (obj1 obj2 : Value) (path : string)
    : option (list DiffResult) :=
  compareObjectsFuel (S (Nat.max (height obj1) (height obj2))) obj1 obj2 path.

(** Modelled from the spec: the type [JsonValue] of [./types], as the
    values that are null, a boolean, a number, a string, an array of such
    values or an object of such values; the keys of an object are pairwise
    distinct. *)
Fixpoint isJsonValue (v : Value) : bool :=
  match v with
  | VUndefined | VHost _ => false
  | VNull | VBool _ | VNumber _ | VString _ => true
  | VArray elems => forallb isJsonValue elems
  | VObject props =>
      bool_decide (NoDup props.*1) && forallb (λ p, isJsonValue p.2) props
  end.

(** The terminal values of a document: the values that are not arrays or
    objects, once for each place they occur at, in document order. *)
Fixpoint leaves (v : Value) : list Value :=
  match v with
  | VArray elems => concat (map leaves elems)
  | VObject props => concat (map (λ p, leaves p.2) props)
  | _ => [v]
  end.

Definition leafCount (v : Value) : nat := length (leaves v).

(** An [equal] record that carries the terminal value [x] on both sides. *)
Definition equalRecordOf (d : DiffResult) (x : Value) : Prop :=
  type d = equal ∧ oldValue d = Some x ∧ newValue d = Some x.

(** Exchanging the two sides of a record. *)
Definition swapType (t : DiffType) : DiffType :=
  match t with
  | added => removed
  | removed => added
  | modified => modified
  | equal => equal
  end.

Definition swapRecord (d : DiffResult) : DiffResult :=
  {| path := path d; type := swapType (type d);
     oldValue := newValue d; newValue := oldValue d |}.

(** An array or object without own enumerable properties. *)
Definition emptyComposite (v : Value) : bool :=
  match v with
  | VArray [] | VObject [] => true
  | _ => false
  end.

(** The record of index [i] of two arrays whose elements there are [x] and
    [y], not both arrays or objects. *)
Definition indexRecord (path : string) (i : nat) (x y : Value) : DiffResult :=
  {| path := childPath path (indexKey i);
     type := if strictEq x y then equal else modified;
     oldValue := Some x; newValue := Some y |}.

(** The invariant of a record: what its kind says about its values. *)
Definition recordInvariant (d : DiffResult) : Prop :=
  match type d with
  | equal => ∃ v, oldValue d = Some v ∧ newValue d = Some v
  | modified => ∃ v1 v2, oldValue d = Some v1 ∧ newValue d = Some v2 ∧ v1 ≠ v2
  | added => oldValue d = None ∧ is_Some (newValue d)
  | removed => is_Some (oldValue d) ∧ newValue d = None
  end.

End Differ.

(** ** The compare handler

    The part of the component's state that [handleCompare] reads and
    writes.  A state setter is a function on the state. *)

Section Handler.
Context {number host : Type} `{!Runtime number host}.

Abbreviation Value := (Value number host).
Abbreviation DiffResult := (DiffResult number host).

Record State := mkState {
  json1 : string;
  json2 : string;
  error1 : string;
  error2 : string;
  isShowingDiffs : bool;
  diffs : list DiffResult
}.

Definition setError1 (err : string) (st : State) : State :=
  mkState (json1 st) (json2 st) err (error2 st) (isShowingDiffs st) (diffs st).

Definition setError2 (err : string) (st : State) : State :=
  mkState (json1 st) (json2 st) (error1 st) err (isShowingDiffs st) (diffs st).

Definition setIsShowingDiffs (b : bool) (st : State) : State :=
  mkState (json1 st) (json2 st) (error1 st) (error2 st) b (diffs st).

Definition setDiffs (ds : list DiffResult) (st : State) : State :=
  mkState (json1 st) (json2 st) (error1 st) (error2 st) (isShowingDiffs st) ds.

(** [validateJson(text, setError)]: the value returned ([VNull] for
    [null]) and the state after the call to [setError]. *)
Definition validateJson (text : string) (setError : string → State → State)
    (st : State) : Value * State :=
  if decide (trim text = ""%string) then (VNull, setError ""%string st)
  else
    match JSON_parse text with
    | Parsed parsed => (parsed, setError ""%string st)
    | Throws (JsError message) => (VNull, setError message st)
    | Throws NotAnError => (VNull, setError "Invalid JSON"%string st)
    end.

(** [handleCompare()]: the state after the handler, and the arguments of
    each call it made to [compareObjects]. *)
Definition handleCompare (st : State) : option (State * list (Value * Value)) :=
  let '(parsed1, st1) := validateJson (json1 st) setError1 st in
  let '(parsed2, st2) := validateJson (json2 st) setError2 st1 in
  if negb (strictEq parsed1 VNull) && negb (strictEq parsed2 VNull) then
    differences ← compareObjects parsed1 parsed2 ""%string;
    Some (setIsShowingDiffs true (setDiffs differences st2),
          [(parsed1, parsed2)])
  else
    Some (setIsShowingDiffs false (setDiffs [] st2), []).

(** The text decodes: [JSON.parse] returns a value. *)
Definition decodes (text : string) : Prop :=
  ∃ v, JSON_parse text = Parsed v.

(** The text is not blank and decodes to a value other than [null]. *)
Definition comparable (text : string) : Prop :=
  trim text ≠ ""%string ∧ ∃ v, JSON_parse text = Parsed v ∧ v ≠ VNull.

End Handler.

Global Arguments State : clear implicits.

(** ** Arrays, index by index

    The comparison of two arrays as the specification words it: for each
    index from [0] up to the longer length, the records of the two elements
    at that index when both are arrays or objects, one [equal] or
    [modified] record when they are not, an [added] record when only the
    new array has the index and a [removed] record when only the old one
    has it. *)

Section ByIndex.
Context {number host : Type} `{!Runtime number host}.

Abbreviation Value := (Value number host).
Abbreviation DiffResult := (DiffResult number host).

Definition indexEntry (base : string) (xs ys : list Value) (i : nat)
    : option (list DiffResult) :=
  match xs !! i, ys !! i with
  | Some x, Some y =>
      if isObject x && isObject y
      then compareObjects x y (childPath base (indexKey i))
      else Some [indexRecord base i x y]
  | Some x, None =>
      Some [ {| path := childPath base (indexKey i); type := removed;
                oldValue := Some x; newValue := None |} ]
  | None, Some y =>
      Some [ {| path := childPath base (indexKey i); type := added;
                oldValue := None; newValue := Some y |} ]
  | None, None => Some []
  end.

Definition compareByIndex (base : string) (xs ys : list Value)
    : option (list DiffResult) :=
  rs ← mapM (indexEntry base xs ys)
          (seq 0 (Nat.max (length xs) (length ys)));
  Some (concat rs).

(** The runtime supplies no property under an index numeral from the
    length of the array up to [n]: [i in xs] is false there. *)
Definition noIndexBeyond (xs : list Value) (n : nat) : Prop :=
  ∀ i, (length xs ≤ i < n)%nat → hasProperty (indexKey i) (VArray xs) = false.

End ByIndex.

(** ** What the component derives from the records *)

Section Derived.
Context {number host : Type}.

Abbreviation DiffResult := (DiffResult number host).

(** The state of the checkbox, [boolean | "indeterminate"]. *)
Inductive CheckedState := Checked (b : bool) | Indeterminate.

(** The truthiness of [showOnlyDiffs]: ["indeterminate"] is a non-empty
    string. *)
Definition truthy (c : CheckedState) : bool :=
  match c with
  | Checked b => b
  | Indeterminate => true
  end.

(** [showOnlyDiffs ? diffs.filter((diff) => diff.type !== "equal") : diffs] *)
Definition filteredDiffs (showOnlyDiffs : CheckedState) (diffs : list DiffResult)
    : list DiffResult :=
  if truthy showOnlyDiffs
  then filter (λ diff, type diff ≠ equal) diffs
  else diffs.

(** The four counters of [diffStats]; the fields carry the names of the
    source with a suffix, the kinds having taken the names themselves. *)
Record DiffStats := mkDiffStats {
  addedCount : nat;
  removedCount : nat;
  modifiedCount : nat;
  equalCount : nat
}.

Definition diffStats (diffs : list DiffResult) : DiffStats :=
  {| addedCount := length (filter (λ d, type d = added) diffs);
     removedCount := length (filter (λ d, type d = removed) diffs);
     modifiedCount := length (filter (λ d, type d = modified) diffs);
     equalCount := length (filter (λ d, type d = equal) diffs) |}.

End Derived.

(** The path [p] is [base] or lies below it. *)
Definition pathBelow (base p : string) : Prop :=
  p = base ∨ ∃ rest, p = base +:+ "." +:+ rest.

Definition getDiffColor (t : DiffType) : string :=
  match t with
  | added => "bg-green-50 border-green-200"
  | removed => "bg-red-50 border-red-200"
  | modified => "bg-amber-50 border-amber-200"
  | equal => "bg-gray-50 border-gray-200"
  end%string.

Definition getDiffLabel (t : DiffType) : string :=
  match t with
  | added => "Added"
  | removed => "Removed"
  | modified => "Modified"
  | equal => "Equal"
  end%string.

(** ** Rendering a value

    [JSON.stringify(value, null, 2)] and [String(value)] belong to the
    runtime and are taken as they come. *)

Class Printing (number host : Type) := {
  JSON_stringify : Value number host → string;
  String_ : Value number host → string
}.

(** The colours of the middle span: [bg-red-200 text-red-800] in the old
    node, [bg-green-200 text-green-800] in the new node. *)
Inductive Highlight := Red | Green.

(** What a value is rendered as: a node of the highlighter, a [<pre>] or a
    [<span>] with its text. *)
Inductive Rendered :=
| Highlighted (h : Highlight) (n : SpanNode)
| Pre (content : string)
| Span (content : string).

Inductive Role := RoleOld | RoleNew | RoleSingle.

(** The double quote character. *)
Definition quote : string := String (Ascii.ascii_of_nat 34) EmptyString.

Section Rendering.
Context {number host : Type} `{!Runtime number host} `{!Printing number host}.

Abbreviation Value := (Value number host).
Abbreviation DiffResult := (DiffResult number host).

(** An optional field read from a record: [undefined] when left out. *)
Definition field (o : option Value) : Value := default VUndefined o.

(** [renderValueWithHighlight(value, peerValue, role)]; a peer that is not
    passed is [undefined]. *)
Definition renderValueWithHighlight (value peerValue : Value) (role : Role)
    : option Rendered :=
  match value, peerValue with
  | VString v, VString p =>
      spans ← getStringDiffSpans v p;
      Some (match role with
            | RoleOld => Highlighted Red (oldNode spans)
            | _ => Highlighted Green (newNode spans)
            end)
  | _, _ =>
      if bool_decide (typeof value = TObject) && negb (strictEq value VNull)
      then Some (Pre (JSON_stringify value))
      else if strictEq value VNull then Some (Span "null")
      else if strictEq value VUndefined then Some (Span "undefined")
      else match value with
           | VString v => Some (Span (quote +:+ v +:+ quote))
           | _ => Some (Span (String_ value))
           end
  end.

(** [formatValue(value)] *)
Definition formatValue (value : Value) : string :=
  if strictEq value VNull then "null"
  else if strictEq value VUndefined then "undefined"
  else if bool_decide (typeof value = TObject) then JSON_stringify value
  else match value with
       | VString v => quote +:+ v +:+ quote
       | _ => String_ value
       end.

(** A line of a row: its sign and the rendered value; the line of an
    [equal] row is plain text. *)
Inductive Line :=
| Signed (sign : string) (content : Rendered)
| Plain (content : string).

(** The value shown on a signed line: with the highlighter when both
    values of the record are strings, alone otherwise. *)
Definition renderSide (diff : DiffResult) (own peer : option Value)
    (role : Role) : option Rendered :=
  if bool_decide (typeof (field (oldValue diff)) = TString)
     && bool_decide (typeof (field (newValue diff)) = TString)
  then renderValueWithHighlight (field own) (field peer) role
  else renderValueWithHighlight (field own) VUndefined RoleSingle.

(** The lines of the row of a record, in the order of the page. *)
Definition rowLines (diff : DiffResult) : option (list Line) :=
  match type diff with
  | removed =>
      r ← renderSide diff (oldValue diff) (newValue diff) RoleOld;
      Some [Signed "- " r]
  | added =>
      r ← renderSide diff (newValue diff) (oldValue diff) RoleNew;
      Some [Signed "+ " r]
  | modified =>
      r1 ← renderSide diff (oldValue diff) (newValue diff) RoleOld;
      r2 ← renderSide diff (newValue diff) (oldValue diff) RoleNew;
      Some [Signed "- " r1; Signed "+ " r2]
  | equal => Some [Plain (formatValue (field (oldValue diff)))]
  end.

(** The line shows a node of the highlighter. *)
Definition usesHighlighter (l : Line) : bool :=
  match l with
  | Signed _ (Highlighted _ _) => true
  | _ => false
  end.

(** The text a rendered value shows. *)
Definition shown (r : Rendered) : string :=
  match r with
  | Highlighted _ n => text n
  | Pre content | Span content => content
  end.

End Rendering.

(** ** The page as a state machine *)

Section Page.
Context {number host : Type} `{!Runtime number host}.

Abbreviation Value := (Value number host).
Abbreviation State := (State number host).

(** The initial values of the [useState] calls. *)
Definition initialState : State :=
  mkState ""%string ""%string ""%string ""%string false [].

Definition setJson1 (text : string) (st : State) : State :=
  mkState text (json2 st) (error1 st) (error2 st) (isShowingDiffs st) (diffs st).

Definition setJson2 (text : string) (st : State) : State :=
  mkState (json1 st) text (error1 st) (error2 st) (isShowingDiffs st) (diffs st).

(** The memo [json1Parsed] (and [json2Parsed]) of a text: the decoded value,
    [undefined] when [JSON.parse] throws. *)
Definition parsedMemo (text : string) : Value :=
  match JSON_parse text with
  | Parsed parsed => parsed
  | Throws _ => VUndefined
  end.

(** What [validateJson] makes of a text: the value it returns and the
    message it passes to [setError]. *)
Definition validated (text : string) : Value * string :=
  if decide (trim text = ""%string) then (VNull, ""%string)
  else
    match JSON_parse text with
    | Parsed parsed => (parsed, ""%string)
    | Throws (JsError message) => (VNull, message)
    | Throws NotAnError => (VNull, "Invalid JSON"%string)
    end.

(** The state [handleCompare] leaves when it compares, and when it does
    not. *)
Definition comparedState (st : State) (differences : list (DiffResult number host)) : State :=
  mkState (json1 st) (json2 st) (validated (json1 st)).2 (validated (json2 st)).2
    true differences.

Definition clearedState (st : State) : State :=
  mkState (json1 st) (json2 st) (validated (json1 st)).2 (validated (json2 st)).2
    false [].

(** The [onChange] handlers of the two text areas. *)
Definition onChange1 (text : string) (st : State) : State :=
  (validateJson text setError1 (setJson1 text st)).2.

Definition onChange2 (text : string) (st : State) : State :=
  (validateJson text setError2 (setJson2 text st)).2.

(** [handleClear()] *)
Definition handleClear (st : State) : State :=
  setIsShowingDiffs false
    (setDiffs [] (setError2 ""%string (setError1 ""%string
       (setJson2 ""%string (setJson1 ""%string st))))).

(** The [disabled] attribute of the two buttons:
    [!json1.trim() || !json2.trim() || !!error1 || !!error2]. *)
Definition disabled (st : State) : bool :=
  bool_decide (trim (json1 st) = ""%string)
  || bool_decide (trim (json2 st) = ""%string)
  || negb (bool_decide (error1 st = ""%string))
  || negb (bool_decide (error2 st = ""%string)).

(** What the user can do.  The text areas, the compare button and the
    clear button are on the page while the records are not shown, the edit
    button while they are; a disabled button does not call its handler. *)
Inductive Event :=
| ChangeJson1 (text : string)
| ChangeJson2 (text : string)
| ClickCompare
| ClickClear
| ClickEdit.

Definition available (e : Event) (st : State) : bool :=
  match e with
  | ChangeJson1 _ | ChangeJson2 _ | ClickClear => negb (isShowingDiffs st)
  | ClickCompare => negb (isShowingDiffs st) && negb (disabled st)
  | ClickEdit => isShowingDiffs st && negb (disabled st)
  end.

(** The state after an event; [None] when the budget of [compareObjects]
    is not enough. *)
Definition step (st : State) (e : Event) : option State :=
  if available e st then
    match e with
    | ChangeJson1 text => Some (onChange1 text st)
    | ChangeJson2 text => Some (onChange2 text st)
    | ClickCompare => fst <$> handleCompare st
    | ClickClear => Some (handleClear st)
    | ClickEdit => Some (setIsShowingDiffs false st)
    end
  else Some st.

Definition run (events : list Event) : option State :=
  foldl (λ acc e, acc ≫= λ st, step st e) (Some initialState) events.

(** While the records are shown they are the comparison of the two texts,
    and the viewers hold the two compared values. *)
Definition shownInvariant (st : State) : Prop :=
  isShowingDiffs st = true →
  ∃ v1 v2,
    JSON_parse (json1 st) = Parsed v1 ∧ JSON_parse (json2 st) = Parsed v2
    ∧ parsedMemo (json1 st) = v1 ∧ parsedMemo (json2 st) = v2
    ∧ compareObjects v1 v2 "" = Some (diffs st).

(** The two messages are those of the two texts. *)
Definition errorInvariant (st : State) : Prop :=
  error1 st = (validated (json1 st)).2 ∧ error2 st = (validated (json2 st)).2.

End Page.

(** ** A concrete runtime

    A runtime to run the component on concrete documents: numbers are
    integers, the built-ins are the two prototype objects and their
    functions, and the decoder knows the three literal documents. *)

Module Reference.

Inductive Owner := OfObject | OfArray.

Inductive Builtin :=
| ObjectPrototype
| ArrayPrototype
| BuiltinFunction (owner : Owner) (name : string).

Global Instance Owner_eq_dec : EqDecision Owner.
Proof. solve_decision. Defined.

Global Instance Builtin_eq_dec : EqDecision Builtin.
Proof. solve_decision. Defined.

Abbreviation Value := (Value Z Builtin).

Definition objectPrototypeNames : list string :=
  [ "constructor"; "__defineGetter__"; "__defineSetter__"; "hasOwnProperty";
    "__lookupGetter__"; "__lookupSetter__"; "isPrototypeOf";
    "propertyIsEnumerable"; "toString"; "valueOf"; "toLocaleString" ]%string.

Definition arrayPrototypeNames : list string :=
  [ "constructor"; "at"; "concat"; "copyWithin"; "fill"; "find"; "findIndex";
    "findLast"; "findLastIndex"; "lastIndexOf"; "pop"; "push"; "reverse";
    "shift"; "unshift"; "slice"; "sort"; "splice"; "includes"; "indexOf";
    "join"; "keys"; "entries"; "values"; "forEach"; "filter"; "flat";
    "flatMap"; "map"; "every"; "some"; "reduce"; "reduceRight";
    "toLocaleString"; "toString"; "toReversed"; "toSorted"; "toSpliced";
    "with" ]%string.

Definition fromObjectPrototype (key : string) : option Value :=
  if decide (key ∈ objectPrototypeNames)
  then Some (VHost (BuiltinFunction OfObject key)) else None.

Definition fromArrayPrototype (key : string) : option Value :=
  if decide (key ∈ arrayPrototypeNames)
  then Some (VHost (BuiltinFunction OfArray key)) else fromObjectPrototype key.

(** The accessor [__proto__] answers the prototype of the receiver. *)
Definition builtinProperty (v : Value) (key : string) : option Value :=
  match v with
  | VObject _ =>
      if decide (key = "__proto__"%string) then Some (VHost ObjectPrototype)
      else fromObjectPrototype key
  | VArray elems =>
      if decide (key = "length"%string)
      then Some (VNumber (Z.of_nat (length elems)))
      else if decide (key = "__proto__"%string) then Some (VHost ArrayPrototype)
      else fromArrayPrototype key
  | VHost ObjectPrototype =>
      if decide (key = "__proto__"%string) then Some VNull
      else fromObjectPrototype key
  | VHost ArrayPrototype =>
      if decide (key = "length"%string) then Some (VNumber 0)
      else if decide (key = "__proto__"%string) then Some (VHost ObjectPrototype)
      else fromArrayPrototype key
  | _ => None
  end.

Definition isFunction (h : Builtin) : bool :=
  match h with
  | BuiltinFunction _ _ => true
  | _ => false
  end.

(** [JSON.parse] on the texts [null], [true] and [false]; any other text
    is refused, with the message of a syntax error. *)
Definition parseLiteral (text : string) : ParseOutcome Z Builtin :=
  if decide (text = "null"%string) then Parsed VNull
  else if decide (text = "true"%string) then Parsed (VBool true)
  else if decide (text = "false"%string) then Parsed (VBool false)
  else Throws (JsError "Unexpected token"%string).

(** [trim] removes the white space at both ends. *)
Fixpoint trimStart (l : list ascii) : list ascii :=
  match l with
  | c :: l' => if Ascii.is_space c then trimStart l' else l
  | [] => []
  end.

Definition trimSpaces (s : string) : string :=
  JsString.of_chars
    (reverse (trimStart (reverse (trimStart (JsString.chars s))))).

Lemma builtinProperty_height (v : Value) (key : string) (x : Value) :
  builtinProperty v key = Some x → height x = 0%nat.
Proof.
  unfold builtinProperty, fromArrayPrototype, fromObjectPrototype.
  intros Hx. repeat case_match; by simplify_eq.
Qed.

Global Instance runtime : Runtime Z Builtin := {|
  callable := isFunction;
  inherited := builtinProperty;
  inherited_height := builtinProperty_height;
  JSON_parse := parseLiteral;
  trim := trimSpaces
|}.

End Reference.

(** * Properties *)

(** ** Facts about the differ *)

Section DifferFacts.
Context {number host : Type} `{!Runtime number host}.

Abbreviation Value := (Value number host).
Abbreviation DiffResult := (DiffResult number host).

Implicit Types (obj a b v : Value) (key path : string).
Implicit Types (recur : Value → Value → string → option (list DiffResult)).

Local Open Scope nat_scope.

Lemma strictEq_true a b : strictEq a b = true → a = b.
Proof.
  destruct a, b; simpl; try done; intros Heq%bool_decide_eq_true; by subst.
Qed.

Lemma strictEq_sym a b : strictEq a b = strictEq b a.
Proof.
  destruct a, b; simpl; try done; apply bool_decide_ext; split; congruence.
Qed.

Lemma strictEq_refl_leaf a : isObject a = false → strictEq a a = true.
Proof.
  unfold isObject.
  destruct a; simpl; try done; try (intros _; by apply bool_decide_eq_true).
Qed.

Lemma strictEq_false_ne a b :
  isObject a && isObject b = false → strictEq a b = false → a ≠ b.
Proof.
  intros Hleaf Hne ->.
  destruct (isObject b) eqn:Hb; [done|].
  by rewrite strictEq_refl_leaf in Hne.
Qed.

(** The guard of the first [if] of [compareObjects] is the negation of the
    guard under which the loop body recurses. *)
Lemma leaf_guard (obj1 obj2 : Value) :
  strictEq obj1 VNull || strictEq obj2 VNull
    || negb (bool_decide (typeof obj1 = TObject))
    || negb (bool_decide (typeof obj2 = TObject))
  = negb (isObject obj1 && isObject obj2).
Proof.
  unfold isObject.
  by destruct (strictEq obj1 VNull), (strictEq obj2 VNull),
    (bool_decide (typeof obj1 = TObject)), (bool_decide (typeof obj2 = TObject)).
Qed.

Lemma forEach_push_Some {A B : Type} (f : A → option (list B))
    (xs : list A) (acc r : list B) :
  forEach xs (λ x results, pushed ← f x; Some (results ++ pushed)) acc
    = Some r
  ↔ ∃ rs, Forall2 (λ x pushed, f x = Some pushed) xs rs
          ∧ r = acc ++ concat rs.
Proof.
  unfold forEach. revert acc.
  induction xs as [|x xs IH]; intros acc; simpl.
  - split.
    + intros [= <-]. exists []. split; [constructor|]. by rewrite app_nil_r.
    + intros (rs & Hrs & ->). inversion Hrs. by rewrite app_nil_r.
  - destruct (f x) as [pushed|] eqn:Hx; simpl.
    + rewrite IH. split.
      * intros (rs & Hrs & ->). exists (pushed :: rs).
        split; [by constructor|]. by rewrite <- app_assoc.
      * intros (rs & Hrs & ->).
        apply Forall2_cons_inv_l in Hrs as (pushed' & rs' & Hp & Hrs' & ->).
        exists rs'. split; [done|]. simpl. rewrite app_assoc.
        by replace pushed' with pushed by congruence.
    + split.
      * intros Hnone. exfalso. clear -Hnone.
        induction xs as [|y xs IHy]; simpl in *; [done|auto].
      * intros (rs & Hrs & _).
        apply Forall2_cons_inv_l in Hrs as (? & ? & ? & _). congruence.
Qed.

Lemma compareBody_leaf recur (obj1 obj2 : Value) path :
  isObject obj1 && isObject obj2 = false →
  compareBody recur obj1 obj2 path =
    Some [ {| path := pathOrRoot path;
              type := if strictEq obj1 obj2 then equal else modified;
              oldValue := Some obj1; newValue := Some obj2 |} ].
Proof.
  intros Hleaf. unfold compareBody. rewrite leaf_guard, Hleaf. simpl.
  by destruct (strictEq obj1 obj2).
Qed.

Lemma compareBody_composite recur (obj1 obj2 : Value) path r :
  isObject obj1 && isObject obj2 = true →
  compareBody recur obj1 obj2 path = Some r
  ↔ ∃ rs,
      Forall2 (λ key pushed, visitKey recur obj1 obj2 path key = Some pushed)
        (newSet (Object_keys obj1 ++ Object_keys obj2)) rs
      ∧ r = concat rs.
Proof.
  intros Hcomp. unfold compareBody. rewrite leaf_guard, Hcomp. simpl.
  by rewrite forEach_push_Some.
Qed.

(** *** The key set *)

Lemma elem_of_foldl_Set_add (s keys : list string) key :
  key ∈ foldl Set_add s keys ↔ key ∈ s ∨ key ∈ keys.
Proof.
  revert s. induction keys as [|k keys IH]; intros s; simpl.
  - rewrite elem_of_nil. tauto.
  - rewrite IH, elem_of_cons. unfold Set_add.
    destruct (decide (k ∈ s)) as [Hin|Hout].
    + split; [tauto|]. intros [?|[->|?]]; tauto.
    + rewrite elem_of_app, list_elem_of_singleton. tauto.
Qed.

Lemma NoDup_foldl_Set_add (s keys : list string) :
  NoDup s → NoDup (foldl Set_add s keys).
Proof.
  revert s. induction keys as [|k keys IH]; intros s Hs; simpl; [done|].
  apply IH. unfold Set_add. destruct (decide (k ∈ s)); [done|].
  apply NoDup_app. split_and!; [done| |apply NoDup_singleton].
  intros x Hx ->%list_elem_of_singleton. done.
Qed.

Lemma foldl_Set_add_absorb (s keys : list string) :
  (∀ key, key ∈ keys → key ∈ s) → foldl Set_add s keys = s.
Proof.
  induction keys as [|k keys IH]; intros Hsub; simpl; [done|].
  unfold Set_add at 2. rewrite decide_True by (apply Hsub; left).
  apply IH. intros key Hkey. apply Hsub. by right.
Qed.

Lemma foldl_Set_add_fresh (s keys : list string) :
  NoDup (s ++ keys) → foldl Set_add s keys = s ++ keys.
Proof.
  revert s. induction keys as [|k keys IH]; intros s Hnd; simpl.
  - by rewrite app_nil_r.
  - unfold Set_add at 2.
    apply NoDup_app in Hnd as Hparts. destruct Hparts as (Hs & Hdisj & Hks).
    rewrite decide_False by (intros Hin; apply (Hdisj k Hin); left).
    rewrite IH; [by rewrite <- app_assoc|].
    by rewrite <- app_assoc.
Qed.

Lemma elem_of_newSet keys key : key ∈ newSet keys ↔ key ∈ keys.
Proof.
  unfold newSet. rewrite elem_of_foldl_Set_add, elem_of_nil. tauto.
Qed.

Lemma NoDup_newSet keys : NoDup (newSet keys).
Proof. apply NoDup_foldl_Set_add, NoDup_nil_2. Qed.

Lemma newSet_twice keys : NoDup keys → newSet (keys ++ keys) = keys.
Proof.
  intros Hnd. unfold newSet. rewrite foldl_app.
  rewrite (foldl_Set_add_fresh [] keys) by done. simpl.
  by apply foldl_Set_add_absorb.
Qed.

Lemma newSet_comm keys1 keys2 :
  newSet (keys1 ++ keys2) ≡ₚ newSet (keys2 ++ keys1).
Proof.
  apply NoDup_Permutation; [apply NoDup_newSet..|].
  intros key. rewrite !elem_of_newSet, !elem_of_app. tauto.
Qed.

(** *** Properties and nesting depth *)

Lemma lookupOwn_Some key (props : list (string * Value)) x :
  lookupOwn key props = Some x → (key, x) ∈ props.
Proof.
  induction props as [|[k y] props IH]; simpl; [done|].
  destruct (decide (k = key)) as [->|Hne].
  - intros [= ->]. left.
  - intros Hx. right. by apply IH.
Qed.

Lemma lookupOwn_is_Some key (props : list (string * Value)) :
  key ∈ props.*1 → is_Some (lookupOwn key props).
Proof.
  induction props as [|[k y] props IH]; simpl.
  - by intros ?%elem_of_nil.
  - destruct (decide (k = key)) as [->|Hne]; [by eexists|].
    intros [Heq|Hin]%elem_of_cons; [congruence|by apply IH].
Qed.

Lemma lookupOwn_NoDup key x (props : list (string * Value)) :
  NoDup props.*1 → (key, x) ∈ props → lookupOwn key props = Some x.
Proof.
  induction props as [|[k y] props IH]; simpl.
  - by intros _ ?%elem_of_nil.
  - intros [Hk Hnd]%NoDup_cons [Heq|Hin]%elem_of_cons.
    + injection Heq as -> ->. by rewrite decide_True.
    + rewrite decide_False; [by apply IH|].
      intros ->. apply Hk. by apply (list_elem_of_fmap_2 fst) in Hin.
Qed.

Lemma height_elem {A : Type} (f : A → nat) (x : A) (l : list A) :
  x ∈ l → f x ≤ foldr Nat.max 0 (map f l).
Proof.
  induction l as [|y l IH]; simpl.
  - by intros ?%elem_of_nil.
  - intros [->|Hin]%elem_of_cons; [lia|]. specialize (IH Hin). lia.
Qed.

Lemma ownProps_height obj key x : (key, x) ∈ ownProps obj → height x < height obj.
Proof.
  destruct obj as [| | | | |elems|props|]; simpl; try (by intros ?%elem_of_nil).
  - intros (i & Hi)%list_elem_of_lookup_1.
    rewrite list_lookup_imap in Hi.
    destruct (elems !! i) as [y|] eqn:Hy; simplify_eq/=.
    apply list_elem_of_lookup_2 in Hy.
    apply (height_elem height) in Hy. lia.
  - intros Hin. apply (height_elem (λ p, height p.2)) in Hin. simpl in Hin. lia.
Qed.

Lemma get_height obj key :
  height (get obj key) < height obj ∨ height (get obj key) = 0.
Proof.
  unfold get, property.
  destruct (lookupOwn key (ownProps obj)) as [x|] eqn:Hown; simpl.
  - left. eapply ownProps_height, lookupOwn_Some, Hown.
  - right. destruct (inherited obj key) as [x|] eqn:Hinh; simpl; [|done].
    by eapply inherited_height.
Qed.

Lemma hasProperty_own obj key : key ∈ Object_keys obj → hasProperty key obj = true.
Proof.
  intros Hkey. apply bool_decide_eq_true. unfold property.
  destruct (lookupOwn_is_Some key (ownProps obj) Hkey) as [x ->]. by eexists.
Qed.

Lemma Object_keys_height obj key : key ∈ Object_keys obj → 0 < height obj.
Proof.
  unfold Object_keys. intros ([k x] & -> & Hin)%list_elem_of_fmap_1.
  apply ownProps_height in Hin. lia.
Qed.

Lemma allKeys_height (obj1 obj2 : Value) key :
  key ∈ newSet (Object_keys obj1 ++ Object_keys obj2) →
  0 < Nat.max (height obj1) (height obj2).
Proof.
  rewrite elem_of_newSet, elem_of_app.
  intros [Hk|Hk]; apply Object_keys_height in Hk; lia.
Qed.

Lemma allKeys_hasProperty (obj1 obj2 : Value) key :
  key ∈ newSet (Object_keys obj1 ++ Object_keys obj2) →
  hasProperty key obj1 = true ∨ hasProperty key obj2 = true.
Proof.
  rewrite elem_of_newSet, elem_of_app.
  intros [Hk|Hk]; apply hasProperty_own in Hk; auto.
Qed.

(** *** Termination: the budget of [compareObjects] is enough *)

Lemma Forall2_from_total {A B : Type} (R : A → B → Prop) (l : list A) :
  (∀ x, x ∈ l → ∃ y, R x y) → ∃ k, Forall2 R l k.
Proof.
  induction l as [|x l IH]; intros Htot.
  - exists []. constructor.
  - destruct (Htot x) as [y Hy]; [left|].
    destruct IH as [k Hk]; [intros z Hz; apply Htot; by right|].
    exists (y :: k). by constructor.
Qed.

Lemma compareObjectsFuel_total fuel (obj1 obj2 : Value) path :
  Nat.max (height obj1) (height obj2) < fuel →
  is_Some (compareObjectsFuel fuel obj1 obj2 path).
Proof.
  revert obj1 obj2 path.
  induction fuel as [|fuel IH]; intros obj1 obj2 path Hfuel; [lia|]. simpl.
  destruct (isObject obj1 && isObject obj2) eqn:Hcomp.
  - destruct (Forall2_from_total
        (λ key pushed,
           visitKey (compareObjectsFuel fuel) obj1 obj2 path key = Some pushed)
        (newSet (Object_keys obj1 ++ Object_keys obj2))) as [rs Hrs].
    + intros key Hkey. apply allKeys_height in Hkey.
      change (is_Some (visitKey (compareObjectsFuel fuel) obj1 obj2 path key)).
      unfold visitKey. repeat case_match; try by eexists.
      apply IH.
      destruct (get_height obj1 key), (get_height obj2 key); lia.
    + exists (concat rs). apply compareBody_composite; [done|]. by exists rs.
  - rewrite compareBody_leaf by done. by eexists.
Qed.

Lemma compareObjects_total (obj1 obj2 : Value) path :
  is_Some (compareObjects obj1 obj2 path).
Proof. apply compareObjectsFuel_total. lia. Qed.

(** *** The invariant of the records *)

Lemma Forall_concat_2 {A : Type} (P : A → Prop) (ls : list (list A)) :
  Forall (Forall P) ls → Forall P (concat ls).
Proof.
  induction 1 as [|l ls Hl _ IH]; simpl; [constructor|].
  by apply Forall_app.
Qed.

Lemma visitKey_invariant recur (obj1 obj2 : Value) path key pushed :
  (∀ v1 v2 p r, recur v1 v2 p = Some r → Forall recordInvariant r) →
  visitKey recur obj1 obj2 path key = Some pushed →
  Forall recordInvariant pushed.
Proof.
  intros Hrecur. unfold visitKey.
  destruct (hasProperty key obj1); simpl.
  2:{ intros [= <-]. repeat constructor. by eexists. }
  destruct (hasProperty key obj2); simpl.
  2:{ intros [= <-]. repeat constructor. by eexists. }
  destruct (isObject (get obj1 key) && isObject (get obj2 key)) eqn:Hcomp.
  { apply Hrecur. }
  destruct (strictEq (get obj1 key) (get obj2 key)) eqn:Heq; simpl;
    intros [= <-]; repeat constructor; unfold recordInvariant; simpl.
  - apply strictEq_true in Heq. rewrite Heq. by eexists.
  - eexists _, _. split_and!; [done..|]. by apply strictEq_false_ne.
Qed.

Lemma compareObjectsFuel_invariant fuel (obj1 obj2 : Value) path r :
  compareObjectsFuel fuel obj1 obj2 path = Some r →
  Forall recordInvariant r.
Proof.
  revert obj1 obj2 path r.
  induction fuel as [|fuel IH]; intros obj1 obj2 path r; simpl; [done|].
  destruct (isObject obj1 && isObject obj2) eqn:Hcomp.
  - intros (rs & Hrs & ->)%compareBody_composite; [|done].
    apply Forall_concat_2.
    eapply Forall2_Forall_r; [exact Hrs|].
    apply Forall_forall. intros key _ pushed.
    apply visitKey_invariant. apply IH.
  - rewrite compareBody_leaf by done. intros [= <-].
    repeat constructor. unfold recordInvariant. simpl.
    destruct (strictEq obj1 obj2) eqn:Heq.
    + apply strictEq_true in Heq. rewrite Heq. by eexists.
    + eexists _, _. split_and!; [done..|]. by apply strictEq_false_ne.
Qed.

(** *** Comparing a document with itself *)

Lemma indexKey_inj i j : indexKey i = indexKey j → i = j.
Proof.
  unfold indexKey. intros Heq.
  apply (f_equal DecimalString.NilEmpty.uint_of_string) in Heq.
  rewrite !DecimalString.NilEmpty.usu in Heq.
  injection Heq as Heq. apply (f_equal Nat.of_uint) in Heq.
  by rewrite !DecimalNat.Unsigned.of_to in Heq.
Qed.

Lemma isJsonValue_NoDup_keys v : isJsonValue v = true → NoDup (Object_keys v).
Proof.
  unfold Object_keys.
  destruct v as [| | | | |elems|props|]; simpl; try (intros; apply NoDup_nil_2).
  - intros _. apply NoDup_alt. intros i j k Hi Hj.
    rewrite list_lookup_fmap, list_lookup_imap in Hi, Hj.
    destruct (elems !! i), (elems !! j); simplify_eq/=.
    by apply indexKey_inj.
  - intros [Hnd _]%andb_true_iff. by apply bool_decide_eq_true in Hnd.
Qed.

Lemma isJsonValue_child v key x :
  isJsonValue v = true → (key, x) ∈ ownProps v → isJsonValue x = true.
Proof.
  destruct v as [| | | | |elems|props|]; simpl; try (by intros _ ?%elem_of_nil).
  - intros Hall (i & Hi)%list_elem_of_lookup_1.
    rewrite list_lookup_imap in Hi.
    destruct (elems !! i) as [y|] eqn:Hy; simplify_eq/=.
    rewrite forallb_forall in Hall. apply Hall.
    apply list_elem_of_In. by eapply list_elem_of_lookup_2.
  - intros [_ Hall]%andb_true_iff Hin.
    rewrite forallb_forall in Hall.
    apply list_elem_of_In in Hin. apply (Hall _ Hin).
Qed.

Lemma isJsonValue_isObject v :
  isJsonValue v = true → isObject v = true →
  leaves v = concat (map (λ p, leaves p.2) (ownProps v)).
Proof.
  destruct v as [| | | | |elems|props|]; simpl; try done.
  intros _ _. f_equal.
  change (map ?f ?l) with (f <$> l).
  rewrite fmap_imap. by rewrite <- (imap_const leaves).
Qed.

Lemma leaves_leaf v : isObject v = false → leaves v = [v].
Proof. by destruct v. Qed.

Lemma get_own v key x :
  NoDup (Object_keys v) → (key, x) ∈ ownProps v → get v key = x.
Proof.
  intros Hnd Hin. unfold get, property.
  by rewrite (lookupOwn_NoDup key x) by done.
Qed.

Lemma Forall2_concat_2 {A B : Type} (P : A → B → Prop) ls1 ls2 :
  Forall2 (Forall2 P) ls1 ls2 → Forall2 P (concat ls1) (concat ls2).
Proof.
  induction 1 as [|l1 l2 ls1 ls2 Hl _ IH]; simpl; [constructor|].
  by apply Forall2_app.
Qed.

Lemma compareObjectsFuel_refl fuel v path :
  isJsonValue v = true → height v < fuel →
  ∃ r, compareObjectsFuel fuel v v path = Some r
       ∧ Forall2 equalRecordOf r (leaves v).
Proof.
  revert v path.
  induction fuel as [|fuel IH]; intros v path Hjson Hfuel; [lia|]. simpl.
  destruct (isObject v) eqn:Hobj.
  - pose proof (isJsonValue_NoDup_keys v Hjson) as Hnd.
    destruct (Forall2_from_total
        (λ p pushed,
           visitKey (compareObjectsFuel fuel) v v path p.1 = Some pushed
           ∧ Forall2 equalRecordOf pushed (leaves p.2))
        (ownProps v)) as [rs Hrs].
    { intros [key x] Hin. simpl.
      pose proof (isJsonValue_child v key x Hjson Hin) as Hx.
      pose proof (ownProps_height v key x Hin) as Hhx.
      unfold visitKey.
      rewrite hasProperty_own by (by apply (list_elem_of_fmap_2 fst) in Hin).
      simpl. rewrite (get_own v key x) by done.
      destruct (isObject x) eqn:Hxobj; simpl.
      - apply IH; [done|lia].
      - rewrite strictEq_refl_leaf by done. simpl.
        eexists. split; [done|]. rewrite leaves_leaf by done.
        by repeat constructor. }
    exists (concat rs). split.
    + apply compareBody_composite; [by rewrite Hobj|].
      exists rs. split; [|done].
      rewrite newSet_twice by done. unfold Object_keys.
      apply Forall2_fmap_l. eapply Forall2_impl; [exact Hrs|].
      by intros p pushed [Hp _].
    + rewrite isJsonValue_isObject by done.
      apply Forall2_concat_2. change (map ?f ?l) with (f <$> l).
      apply Forall2_fmap_r. apply Forall2_flip.
      eapply Forall2_impl; [exact Hrs|]. by intros p pushed [_ Hp].
  - rewrite compareBody_leaf by (by rewrite Hobj).
    eexists. split; [done|].
    rewrite strictEq_refl_leaf, leaves_leaf by done. by repeat constructor.
Qed.

(** *** Exchanging the two documents *)

Lemma Forall2_Permutation_l {A B : Type} (R : A → B → Prop) l l' k :
  l ≡ₚ l' → Forall2 R l k → ∃ k', Forall2 R l' k' ∧ k ≡ₚ k'.
Proof.
  intros Hperm. revert k.
  induction Hperm as [|x l l' _ IH|x y l|l1 l2 l3 _ IH1 _ IH2]; intros k Hk.
  - exists k. by split.
  - apply Forall2_cons_inv_l in Hk as (z & k0 & Hz & Hk0 & ->).
    destruct (IH _ Hk0) as (k' & Hk' & Hp).
    exists (z :: k'). split; [by constructor|by constructor].
  - apply Forall2_cons_inv_l in Hk as (z1 & k0 & Hz1 & Hk0 & ->).
    apply Forall2_cons_inv_l in Hk0 as (z2 & k1 & Hz2 & Hk1 & ->).
    exists (z2 :: z1 :: k1). split; [by repeat constructor|apply perm_swap].
  - destruct (IH1 _ Hk) as (k2 & Hk2 & Hp2).
    destruct (IH2 _ Hk2) as (k3 & Hk3 & Hp3).
    exists k3. split; [done|by etrans].
Qed.

Lemma concat_Permutation_2 {A : Type} (ls ls' : list (list A)) :
  ls ≡ₚ ls' → concat ls ≡ₚ concat ls'.
Proof.
  induction 1 as [|l ls ls' _ IH|l1 l2 ls|ls1 ls2 ls3 _ IH1 _ IH2]; simpl.
  - done.
  - by rewrite IH.
  - rewrite !app_assoc. f_equiv. apply Permutation_app_comm.
  - by etrans.
Qed.

Lemma concat_swapped (rs rs1 : list (list DiffResult)) :
  Forall2 (λ pushed pushed', pushed' ≡ₚ swapRecord <$> pushed) rs rs1 →
  concat rs1 ≡ₚ swapRecord <$> concat rs.
Proof.
  induction 1 as [|pushed pushed' rs rs1 Hp _ IH]; simpl; [done|].
  by rewrite fmap_app, Hp, IH.
Qed.

Lemma visitKey_swap recur recur' (obj1 obj2 : Value) path key pushed :
  (∀ v1 v2 p r, recur v1 v2 p = Some r →
     ∃ r', recur' v2 v1 p = Some r' ∧ r' ≡ₚ swapRecord <$> r) →
  hasProperty key obj1 = true ∨ hasProperty key obj2 = true →
  visitKey recur obj1 obj2 path key = Some pushed →
  ∃ pushed', visitKey recur' obj2 obj1 path key = Some pushed'
             ∧ pushed' ≡ₚ swapRecord <$> pushed.
Proof.
  intros Hrecur Hhas. unfold visitKey.
  destruct (hasProperty key obj1) eqn:H1, (hasProperty key obj2) eqn:H2;
    simpl; try (intros [= <-]; by eexists); [|by destruct Hhas].
  rewrite (andb_comm (isObject (get obj2 key))).
  rewrite (strictEq_sym (get obj2 key)).
  destruct (isObject (get obj1 key) && isObject (get obj2 key)).
  { apply Hrecur. }
  destruct (strictEq (get obj1 key) (get obj2 key)); simpl;
    intros [= <-]; by eexists.
Qed.

Lemma compareObjectsFuel_swap fuel (obj1 obj2 : Value) path r :
  compareObjectsFuel fuel obj1 obj2 path = Some r →
  ∃ r', compareObjectsFuel fuel obj2 obj1 path = Some r'
        ∧ r' ≡ₚ swapRecord <$> r.
Proof.
  revert obj1 obj2 path r.
  induction fuel as [|fuel IH]; intros obj1 obj2 path r; simpl; [done|].
  destruct (isObject obj1 && isObject obj2) eqn:Hcomp.
  - intros (rs & Hrs & ->)%compareBody_composite; [|done].
    assert (∃ rs1,
      Forall2 (λ key pushed',
        visitKey (compareObjectsFuel fuel) obj2 obj1 path key = Some pushed')
        (newSet (Object_keys obj1 ++ Object_keys obj2)) rs1
      ∧ Forall2 (λ pushed pushed', pushed' ≡ₚ swapRecord <$> pushed) rs rs1)
      as (rs1 & Hrs1 & Hswapped).
    { pose proof (allKeys_hasProperty obj1 obj2) as Hhas.
      revert Hhas Hrs.
      generalize (newSet (Object_keys obj1 ++ Object_keys obj2)).
      intros keys Hhas Hrs.
      induction Hrs as [|key pushed keys rs Hkey _ IHrs].
      { exists []. split; constructor. }
      destruct IHrs as (rs1 & Hrs1 & Hsw).
      { intros k Hk. apply Hhas. by right. }
      destruct (visitKey_swap _ (compareObjectsFuel fuel) _ _ _ _ _
                  (IH) (Hhas key ltac:(left)) Hkey) as (pushed' & Hp & Hperm).
      exists (pushed' :: rs1). split; by constructor. }
    destruct (Forall2_Permutation_l _ _ _ _
                (newSet_comm (Object_keys obj1) (Object_keys obj2)) Hrs1)
      as (rs' & Hrs' & Hperm).
    exists (concat rs'). split.
    + apply compareBody_composite; [by rewrite andb_comm|]. by exists rs'.
    + rewrite <- (concat_swapped rs rs1 Hswapped).
      apply concat_Permutation_2. by symmetry.
  - rewrite (compareBody_leaf _ obj1 obj2) by done.
    rewrite (compareBody_leaf _ obj2 obj1) by (by rewrite andb_comm).
    intros [= <-]. eexists. split; [done|].
    rewrite (strictEq_sym obj2). by destruct (strictEq obj1 obj2).
Qed.

(** *** Arrays, index by index *)

Lemma NoDup_array_keys (elems : list Value) : NoDup (Object_keys (VArray elems)).
Proof.
  unfold Object_keys. simpl. apply NoDup_alt. intros i j k Hi Hj.
  rewrite list_lookup_fmap, list_lookup_imap in Hi, Hj.
  destruct (elems !! i), (elems !! j); simplify_eq/=.
  by apply indexKey_inj.
Qed.

Lemma array_keys_length (xs ys : list Value) :
  length xs = length ys → Object_keys (VArray xs) = Object_keys (VArray ys).
Proof.
  intros Hlen. unfold Object_keys. simpl. apply list_eq. intros i.
  rewrite !list_lookup_fmap, !list_lookup_imap.
  destruct (xs !! i) as [x|] eqn:Hx, (ys !! i) as [y|] eqn:Hy; simpl; try done.
  - apply lookup_lt_Some in Hx. apply lookup_ge_None in Hy. lia.
  - apply lookup_ge_None in Hx. apply lookup_lt_Some in Hy. lia.
Qed.

Lemma concat_singletons {A : Type} (l : list A) : concat ((λ x, [x]) <$> l) = l.
Proof. induction l as [|x l IH]; simpl; [done|]. by f_equal. Qed.

Lemma compareBody_arrays recur (xs ys : list Value) path :
  Forall2 (λ x y, isObject x && isObject y = false) xs ys →
  compareBody recur (VArray xs) (VArray ys) path =
    Some (imap (λ i p, indexRecord path i p.1 p.2) (zip xs ys)).
Proof.
  intros Hleaves. pose proof (Forall2_length _ _ _ Hleaves) as Hlen.
  apply compareBody_composite; [done|].
  exists ((λ d, [d]) <$> imap (λ i p, indexRecord path i p.1 p.2) (zip xs ys)).
  split; [|by rewrite concat_singletons].
  rewrite <- (array_keys_length xs ys Hlen).
  rewrite newSet_twice by apply NoDup_array_keys.
  apply Forall2_same_length_lookup_2.
  { unfold Object_keys. simpl.
    rewrite !length_fmap, !length_imap, length_zip_with. lia. }
  intros i key pushed Hkey Hpushed.
  unfold Object_keys in Hkey. simpl in Hkey.
  rewrite list_lookup_fmap, list_lookup_imap in Hkey.
  rewrite list_lookup_fmap, list_lookup_imap in Hpushed.
  destruct (xs !! i) as [x|] eqn:Hx; simplify_eq/=.
  destruct (zip xs ys !! i) as [[x' y]|] eqn:Hxy; simplify_eq/=.
  apply lookup_zip_with_Some in Hxy as (x'' & y' & [= -> ->] & Hx' & Hy).
  assert (x'' = x) as -> by congruence.
  assert ((indexKey i, x) ∈ ownProps (VArray xs)) as Hinx.
  { simpl. apply list_elem_of_lookup. exists i.
    by rewrite list_lookup_imap, Hx. }
  assert ((indexKey i, y') ∈ ownProps (VArray ys)) as Hiny.
  { simpl. apply list_elem_of_lookup. exists i.
    by rewrite list_lookup_imap, Hy. }
  unfold visitKey.
  rewrite !hasProperty_own
    by (unfold Object_keys; by eapply (list_elem_of_fmap_2 fst) in Hinx, Hiny).
  simpl.
  rewrite (get_own _ _ _ (NoDup_array_keys xs) Hinx).
  rewrite (get_own _ _ _ (NoDup_array_keys ys) Hiny).
  rewrite (Forall2_lookup_lr _ _ _ _ _ _ Hleaves Hx Hy).
  unfold indexRecord. by destruct (strictEq x y').
Qed.

End DifferFacts.

(** ** The structural differ: the stated properties *)

Section DifferClaims.
Context {number host : Type} `{!Runtime number host}.

Abbreviation Value := (Value number host).
Abbreviation DiffResult := (DiffResult number host).

Local Open Scope nat_scope.

(** C2: for every two values, and so for every two JSON documents,
    [compareObjects] returns, and every record it returns satisfies the
    invariant of its kind: an [equal] record carries the same value on both
    sides, a [modified] record carries two values that differ, an [added]
    record carries no [oldValue] and a [removed] record no [newValue]. *)
Theorem compareObjects_record_invariant (a b : Value) (path : string) :
  ∃ results,
    compareObjects a b path = Some results
    ∧ Forall recordInvariant results.
Proof.
  destruct (compareObjects_total a b path) as [results Hres].
  exists results. split; [done|].
  by eapply compareObjectsFuel_invariant.
Qed.

(** C4: reflexivity.  Comparing a JSON document with itself returns only
    [equal] records, one for each terminal value of the document and in
    their order, each carrying that value on both sides; so the number of
    records is the number of terminal values, and when the document is
    itself a terminal value the one record is at path ["root"]. *)
Theorem compareObjects_reflexive (v : Value) :
  isJsonValue v = true →
  ∃ results,
    compareObjects v v "" = Some results
    ∧ Forall (λ d, type d = equal) results
    ∧ Forall2 equalRecordOf results (leaves v)
    ∧ length results = leafCount v
    ∧ (isObject v = false → path <$> results = ["root"%string]).
Proof.
  intros Hjson.
  destruct (compareObjectsFuel_refl (S (Nat.max (height v) (height v))) v ""
              Hjson ltac:(lia)) as (results & Hres & Hleaves).
  exists results. split_and!; [done| |done| |].
  - eapply Forall2_Forall_l; [exact Hleaves|].
    apply Forall_forall. by intros x _ d [Hd _].
  - by apply Forall2_length in Hleaves.
  - intros Hleaf. unfold compareObjects in Hres. simpl in Hres.
    rewrite compareBody_leaf in Hres by (by rewrite Hleaf).
    by injection Hres as <-.
Qed.

(** C5: symmetry of classification.  The records of [compareObjects b a]
    are, up to their order, the records of [compareObjects a b] with the
    two sides exchanged: an [added] record becomes a [removed] record at
    the same path with its value on the other side, and conversely, and a
    [modified] or [equal] record keeps its kind and path and exchanges its
    values. *)
Theorem compareObjects_swap (a b : Value) (path : string) :
  ∃ results results',
    compareObjects a b path = Some results
    ∧ compareObjects b a path = Some results'
    ∧ results' ≡ₚ swapRecord <$> results.
Proof.
  destruct (compareObjects_total a b path) as [results Hres].
  destruct (compareObjectsFuel_swap _ _ _ _ _ Hres) as (results' & Hres' & Hperm).
  exists results, results'. split_and!; [done| |done].
  unfold compareObjects. by rewrite Nat.max_comm.
Qed.

(** C10: two arrays or objects without keys yield no record at all, at the
    top level as at any path reached by the recursion: the comparison of
    two such values returns the empty list, and so does the comparison of
    two objects that hold them under one key. *)
Theorem compareObjects_empty_composites (e1 e2 : Value) (key path : string) :
  emptyComposite e1 = true → emptyComposite e2 = true →
  compareObjects e1 e2 path = Some []
  ∧ compareObjects (VObject [(key, e1)]) (VObject [(key, e2)]) path = Some [].
Proof.
  intros He1 He2.
  assert (∀ fuel p, compareObjectsFuel (S fuel) e1 e2 p = Some []) as Hempty.
  { intros fuel p.
    destruct e1 as [| | | | |[|]|[|]|], e2 as [| | | | |[|]|[|]|]; done. }
  split; [apply Hempty|].
  unfold compareObjects. simpl.
  apply compareBody_composite; [done|].
  exists [[]]. split; [|done].
  assert (newSet (Object_keys (VObject [(key, e1)])
                  ++ Object_keys (VObject [(key, e2)])) = [key]) as ->.
  { apply (newSet_twice [key]), NoDup_singleton. }
  repeat constructor. unfold visitKey.
  rewrite !hasProperty_own by (unfold Object_keys; simpl; left). simpl.
  unfold get, property. simpl. rewrite !decide_True by done. simpl.
  destruct e1 as [| | | | |[|]|[|]|], e2 as [| | | | |[|]|[|]|]; done.
Qed.

End DifferClaims.

(** ** More on the structural differ *)

Section DifferMore.
Context {number host : Type} `{!Runtime number host}.

Abbreviation Value := (Value number host).
Abbreviation DiffResult := (DiffResult number host).

Implicit Types (a b v : Value) (key path : string).
Implicit Types (recur : Value → Value → string → option (list DiffResult)).

Local Open Scope nat_scope.

Lemma compareBody_mono recur recur' a b path r :
  (∀ v1 v2 p r', recur v1 v2 p = Some r' → recur' v1 v2 p = Some r') →
  compareBody recur a b path = Some r → compareBody recur' a b path = Some r.
Proof.
  intros Hmono. destruct (isObject a && isObject b) eqn:Hcomp.
  - intros (rs & Hrs & ->)%compareBody_composite; [|done].
    apply compareBody_composite; [done|]. exists rs. split; [|done].
    eapply Forall2_impl; [exact Hrs|]. intros k pushed. unfold visitKey.
    repeat case_match; auto.
  - by rewrite !compareBody_leaf by done.
Qed.

Lemma compareObjectsFuel_mono fuel fuel' a b path r :
  fuel ≤ fuel' →
  compareObjectsFuel fuel a b path = Some r →
  compareObjectsFuel fuel' a b path = Some r.
Proof.
  revert fuel' a b path r.
  induction fuel as [|fuel IH]; intros fuel' a b path r Hle; simpl; [done|].
  destruct fuel' as [|fuel']; [lia|]. simpl.
  apply compareBody_mono. intros v1 v2 p r'. apply IH. lia.
Qed.

(** X6: the recursion is as deep as the documents.  With any budget above
    the nesting depth of the deeper document the recursion returns, and
    returns the list that [compareObjects] returns: no deeper call is ever
    made. *)
Theorem compareObjects_budget a b path fuel :
  Nat.max (height a) (height b) < fuel →
  ∃ results,
    compareObjects a b path = Some results
    ∧ compareObjectsFuel fuel a b path = Some results.
Proof.
  intros Hfuel. destruct (compareObjects_total a b path) as [results Hres].
  exists results. split; [done|].
  eapply compareObjectsFuel_mono; [|exact Hres]. lia.
Qed.

Lemma compareObjects_composite a b path results :
  isObject a = true → isObject b = true →
  compareObjects a b path = Some results →
  ∃ rs,
    Forall2 (λ k pushed,
        visitKey (compareObjectsFuel (Nat.max (height a) (height b)))
          a b path k = Some pushed)
      (newSet (Object_keys a ++ Object_keys b)) rs
    ∧ results = concat rs.
Proof.
  intros Ha Hb Hres. unfold compareObjects in Hres. simpl in Hres.
  apply compareBody_composite in Hres; [done|by rewrite Ha, Hb].
Qed.

Lemma elem_of_concat_2 {A : Type} (x : A) (l : list A) (ls : list (list A)) :
  l ∈ ls → x ∈ l → x ∈ concat ls.
Proof.
  induction ls as [|l' ls IH]; simpl.
  - by intros ?%elem_of_nil.
  - intros [->|Hin]%elem_of_cons Hx; apply elem_of_app; [by left|].
    right. by apply IH.
Qed.

Lemma visited_key_in_results a b path results key :
  isObject a = true → isObject b = true →
  compareObjects a b path = Some results →
  key ∈ Object_keys a ∨ key ∈ Object_keys b →
  ∃ pushed,
    visitKey (compareObjectsFuel (Nat.max (height a) (height b)))
      a b path key = Some pushed
    ∧ ∀ d, d ∈ pushed → d ∈ results.
Proof.
  intros Ha Hb Hres Hkey.
  destruct (compareObjects_composite a b path results Ha Hb Hres)
    as (rs & Hrs & ->).
  assert (key ∈ newSet (Object_keys a ++ Object_keys b)) as Hin.
  { rewrite elem_of_newSet, elem_of_app. done. }
  apply list_elem_of_lookup in Hin as [i Hi].
  destruct (Forall2_lookup_l _ _ _ _ _ Hrs Hi) as (pushed & Hpushed & Hvisit).
  exists pushed. split; [done|]. intros d Hd.
  eapply elem_of_concat_2; [|exact Hd]. by eapply list_elem_of_lookup_2.
Qed.

(** X7: added and removed keys are found.  For two arrays or objects, a
    key that the new one has and that [in] does not find in the old one
    yields an [added] record at its path with the new value, and a key that
    the old one has and that [in] does not find in the new one yields a
    [removed] record at its path with the old value. *)
Theorem compareObjects_reports_added_removed a b path :
  isObject a = true → isObject b = true →
  ∃ results,
    compareObjects a b path = Some results
    ∧ (∀ key, key ∈ Object_keys b → hasProperty key a = false →
         {| path := childPath path key; type := added;
            oldValue := None; newValue := Some (get b key) |} ∈ results)
    ∧ (∀ key, key ∈ Object_keys a → hasProperty key b = false →
         {| path := childPath path key; type := removed;
            oldValue := Some (get a key); newValue := None |} ∈ results).
Proof.
  intros Ha Hb. destruct (compareObjects_total a b path) as [results Hres].
  exists results. split_and!; [done|..]; intros key Hkey Hhas.
  - destruct (visited_key_in_results a b path results key Ha Hb Hres)
      as (pushed & Hvisit & Hin); [by right|].
    apply Hin. unfold visitKey in Hvisit. rewrite Hhas in Hvisit.
    simpl in Hvisit. injection Hvisit as <-. left.
  - destruct (visited_key_in_results a b path results key Ha Hb Hres)
      as (pushed & Hvisit & Hin); [by left|].
    apply Hin. unfold visitKey in Hvisit.
    rewrite hasProperty_own, Hhas in Hvisit by done.
    simpl in Hvisit. injection Hvisit as <-. left.
Qed.

(** *** Paths *)

Lemma append_assoc (s1 s2 s3 : string) : (s1 +:+ s2) +:+ s3 = s1 +:+ s2 +:+ s3.
Proof.
  induction s1 as [|c s1 IH]; [done|].
  change (String c ((s1 +:+ s2) +:+ s3) = String c (s1 +:+ s2 +:+ s3)).
  by rewrite IH.
Qed.

Lemma append_nonempty (s1 s2 : string) : s1 ≠ ""%string → s1 +:+ s2 ≠ ""%string.
Proof. by destruct s1. Qed.

Lemma compareObjectsFuel_paths fuel a b (base : string) r :
  base ≠ ""%string →
  compareObjectsFuel fuel a b base = Some r →
  Forall (λ d, pathBelow base (path d)) r.
Proof.
  revert a b base r.
  induction fuel as [|fuel IH]; intros a b base r Hbase; simpl; [done|].
  destruct (isObject a && isObject b) eqn:Hcomp.
  - intros (rs & Hrs & ->)%compareBody_composite; [|done].
    apply Forall_concat_2. eapply Forall2_Forall_r; [exact Hrs|].
    apply Forall_forall. intros k _ pushed. unfold visitKey, childPath.
    rewrite decide_False by done.
    assert (pathBelow base (base +:+ "." +:+ k)) as Hchild.
    { right. by exists k. }
    destruct (hasProperty k a); simpl;
      [|intros [= <-]; by apply Forall_singleton].
    destruct (hasProperty k b); simpl;
      [|intros [= <-]; by apply Forall_singleton].
    destruct (isObject (get a k) && isObject (get b k)).
    + intros Hrec. apply IH in Hrec; [|by apply append_nonempty].
      eapply Forall_impl; [exact Hrec|]. intros d [->|[rest ->]]; [done|].
      right. exists (k +:+ "." +:+ rest). by rewrite !append_assoc.
    + destruct (strictEq (get a k) (get b k)); simpl;
        intros [= <-]; by apply Forall_singleton.
  - rewrite compareBody_leaf by done. intros [= <-]. apply Forall_singleton.
    left. simpl. unfold pathOrRoot. by rewrite decide_False.
Qed.

(** X8: the records of a sub-document lie below its path.  Called with a
    path that is not empty, [compareObjects] returns records whose paths
    are that path or that path followed by a dot and more; none is
    ["root"] or a bare key. *)
Theorem compareObjects_paths_below a b (base : string) :
  base ≠ ""%string →
  ∃ results,
    compareObjects a b base = Some results
    ∧ Forall (λ d, pathBelow base (path d)) results.
Proof.
  intros Hbase. destruct (compareObjects_total a b base) as [results Hres].
  exists results. split; [done|]. by eapply compareObjectsFuel_paths.
Qed.

(** *** Arrays and objects with the same entries *)

Lemma height_ownProps (xs : list Value) :
  height (VObject (ownProps (VArray xs))) = height (VArray xs).
Proof.
  simpl. do 2 f_equal. change (map ?f ?l) with (f <$> l).
  rewrite fmap_imap. by rewrite <- (imap_const height).
Qed.

Lemma compareBody_same_props recur a b b' base :
  isObject a = true → isObject b = true → isObject b' = true →
  ownProps b = ownProps b' →
  (∀ k, k ∈ Object_keys a → k ∈ Object_keys b) →
  compareBody recur a b base = compareBody recur a b' base.
Proof.
  intros Ha Hb Hb' Hprops Hsub.
  assert (Object_keys b' = Object_keys b) as Hkeys.
  { unfold Object_keys. by rewrite Hprops. }
  assert (∀ k, k ∈ Object_keys b → property b' k = property b k) as Hprop.
  { intros k Hk. unfold property. rewrite <- Hprops.
    by destruct (lookupOwn_is_Some k (ownProps b) Hk) as [x ->]. }
  assert (∀ k, k ∈ newSet (Object_keys a ++ Object_keys b) →
            visitKey recur a b' base k = visitKey recur a b base k) as Hvisit.
  { intros k Hk. rewrite elem_of_newSet, elem_of_app in Hk.
    assert (k ∈ Object_keys b) as Hkb by (destruct Hk; auto).
    unfold visitKey, hasProperty, get. by rewrite (Hprop k Hkb). }
  destruct (compareBody recur a b base) as [r|] eqn:Hr.
  - apply compareBody_composite in Hr as (rs & Hrs & ->); [|by rewrite Ha, Hb].
    symmetry. apply compareBody_composite; [by rewrite Ha, Hb'|].
    exists rs. split; [|done]. rewrite Hkeys.
    apply Forall2_same_length_lookup_2; [by eapply Forall2_length|].
    intros i k pushed Hk Hp. rewrite Hvisit by (by eapply list_elem_of_lookup_2).
    by eapply (Forall2_lookup_lr _ _ _ _ _ _ Hrs).
  - destruct (compareBody recur a b' base) as [r'|] eqn:Hr'; [|done].
    apply compareBody_composite in Hr' as (rs & Hrs & ->); [|by rewrite Ha, Hb'].
    rewrite Hkeys in Hrs.
    assert (compareBody recur a b base = Some (concat rs)) as Hsome.
    { apply compareBody_composite; [by rewrite Ha, Hb|].
      exists rs. split; [|done].
      apply Forall2_same_length_lookup_2; [by eapply Forall2_length|].
      intros i k pushed Hk Hp.
      rewrite <- Hvisit by (by eapply list_elem_of_lookup_2).
      by eapply (Forall2_lookup_lr _ _ _ _ _ _ Hrs). }
    congruence.
Qed.

(** X9: an array is compared as the object of its indices.  Against an
    array, the object whose keys are the index numerals of that array and
    whose values are its elements gives the records the array itself
    gives: the differ does not tell the two apart. *)
Theorem compareObjects_array_as_object (xs : list Value) (base : string) :
  compareObjects (VArray xs) (VObject (ownProps (VArray xs))) base
  = compareObjects (VArray xs) (VArray xs) base.
Proof.
  unfold compareObjects. rewrite height_ownProps.
  cbn [compareObjectsFuel]. symmetry.
  by apply compareBody_same_props.
Qed.

(** *** No record for two containers *)

Lemma visitKey_terminal recur a b base k pushed :
  (∀ v1 v2 p r, recur v1 v2 p = Some r →
     Forall (λ d, ∀ x y, oldValue d = Some x → newValue d = Some y →
                         isObject x && isObject y = false) r) →
  visitKey recur a b base k = Some pushed →
  Forall (λ d, ∀ x y, oldValue d = Some x → newValue d = Some y →
                      isObject x && isObject y = false) pushed.
Proof.
  intros Hrecur. unfold visitKey.
  destruct (hasProperty k a); simpl; [|intros [= <-]; by repeat constructor].
  destruct (hasProperty k b); simpl; [|intros [= <-]; by repeat constructor].
  destruct (isObject (get a k) && isObject (get b k)) eqn:Hcomp.
  { apply Hrecur. }
  destruct (strictEq (get a k) (get b k)); simpl; intros [= <-];
    repeat constructor; simpl; by intros x y [= <-] [= <-].
Qed.

Lemma compareObjectsFuel_terminal fuel a b base r :
  compareObjectsFuel fuel a b base = Some r →
  Forall (λ d, ∀ x y, oldValue d = Some x → newValue d = Some y →
                      isObject x && isObject y = false) r.
Proof.
  revert a b base r.
  induction fuel as [|fuel IH]; intros a b base r; simpl; [done|].
  destruct (isObject a && isObject b) eqn:Hcomp.
  - intros (rs & Hrs & ->)%compareBody_composite; [|done].
    apply Forall_concat_2. eapply Forall2_Forall_r; [exact Hrs|].
    apply Forall_forall. intros k _ pushed.
    apply visitKey_terminal. apply IH.
  - rewrite compareBody_leaf by done. intros [= <-].
    repeat constructor. simpl. by intros x y [= <-] [= <-].
Qed.

(** X10: two containers never share a record.  No record that
    [compareObjects] returns carries an array or object on both sides: two
    such values are always descended into, and a record whose two values
    are present has a terminal value on at least one side; so the value of
    an [equal] record is never an array or object. *)
Theorem compareObjects_no_record_for_two_containers a b (base : string) :
  ∃ results,
    compareObjects a b base = Some results
    ∧ Forall (λ d, ∀ x y, oldValue d = Some x → newValue d = Some y →
                          isObject x && isObject y = false) results
    ∧ Forall (λ d, type d = equal →
                   ∀ x, oldValue d = Some x → isObject x = false) results.
Proof.
  destruct (compareObjects_total a b base) as [results Hres].
  exists results. split; [done|].
  pose proof (compareObjectsFuel_terminal _ _ _ _ _ Hres) as Hterm.
  pose proof (compareObjectsFuel_invariant _ _ _ _ _ Hres) as Hinv.
  split; [done|].
  rewrite Forall_forall in Hterm, Hinv. apply Forall_forall.
  intros d Hd Hequal x Hx.
  specialize (Hinv d Hd). unfold recordInvariant in Hinv.
  rewrite Hequal in Hinv. destruct Hinv as (v & Hold & Hnew).
  assert (v = x) as -> by congruence.
  specialize (Hterm d Hd x x Hold Hnew). by destruct (isObject x).
Qed.

End DifferMore.

(** ** The statistics and the filter *)

Section DerivedFacts.
Context {number host : Type} `{!Runtime number host}.

Abbreviation Value := (Value number host).
Abbreviation DiffResult := (DiffResult number host).

Local Open Scope nat_scope.

Lemma count_types (diffs : list DiffResult) :
  length (filter (λ d, type d = added) diffs)
  + length (filter (λ d, type d = removed) diffs)
  + length (filter (λ d, type d = modified) diffs)
  + length (filter (λ d, type d = equal) diffs)
  = length diffs.
Proof.
  induction diffs as [|d diffs IH]; [done|].
  rewrite !filter_cons. simpl length. rewrite <- IH.
  destruct (type d); repeat case_decide; try done; simpl; lia.
Qed.

Lemma count_not_equal (diffs : list DiffResult) :
  length (filter (λ d, type d ≠ equal) diffs)
  + length (filter (λ d, type d = equal) diffs)
  = length diffs.
Proof.
  induction diffs as [|d diffs IH]; [done|].
  rewrite !filter_cons. simpl length. rewrite <- IH.
  repeat case_decide; try done; simpl; lia.
Qed.

(** X11: the statistics add up, and the filter hides the equal records.
    The four counters sum to the number of records.  With the checkbox
    unchecked every record is listed; checked, or ["indeterminate"], the
    list holds no [equal] record and as many records as the counters
    [added], [removed] and [modified] together. *)
Theorem diffStats_filteredDiffs_counts (c : CheckedState) (diffs : list DiffResult) :
  addedCount (diffStats diffs) + removedCount (diffStats diffs)
    + modifiedCount (diffStats diffs) + equalCount (diffStats diffs)
  = length diffs
  ∧ (c = Checked false → filteredDiffs c diffs = diffs)
  ∧ (c ≠ Checked false →
     Forall (λ d, type d ≠ equal) (filteredDiffs c diffs)
     ∧ length (filteredDiffs c diffs)
       = addedCount (diffStats diffs) + removedCount (diffStats diffs)
         + modifiedCount (diffStats diffs)).
Proof.
  split; [apply count_types|]. split; [by intros ->|].
  intros Hc.
  assert (filteredDiffs c diffs = filter (λ d, type d ≠ equal) diffs) as ->.
  { unfold filteredDiffs. by destruct c as [[]|]. }
  split.
  - apply Forall_forall. by intros d [Hd _]%list_elem_of_filter.
  - pose proof (count_types diffs). pose proof (count_not_equal diffs).
    simpl. lia.
Qed.

Lemma count_Permutation (t : DiffType) (l k : list DiffResult) :
  l ≡ₚ k →
  length (filter (λ d, type d = t) l) = length (filter (λ d, type d = t) k).
Proof. by intros ->. Qed.

Lemma count_swapped (t : DiffType) (l : list DiffResult) :
  length (filter (λ d, type d = t) (swapRecord <$> l))
  = length (filter (λ d, type d = swapType t) l).
Proof.
  induction l as [|d l IH]; [done|].
  rewrite fmap_cons, !filter_cons. simpl type.
  destruct (type d), t; repeat case_decide; try done; simpl; by rewrite IH.
Qed.

(** X12: exchanging the documents exchanges two counters.  The statistics
    of the comparison of [b] with [a] are those of the comparison of [a]
    with [b] with [added] and [removed] exchanged; the counters [modified]
    and [equal] are the same. *)
Theorem diffStats_swap (a b : Value) (at_path : string) :
  ∃ results results',
    compareObjects a b at_path = Some results
    ∧ compareObjects b a at_path = Some results'
    ∧ diffStats results'
      = {| addedCount := removedCount (diffStats results);
           removedCount := addedCount (diffStats results);
           modifiedCount := modifiedCount (diffStats results);
           equalCount := equalCount (diffStats results) |}.
Proof.
  destruct (compareObjects_total a b at_path) as [results Hres].
  destruct (compareObjectsFuel_swap _ _ _ _ _ Hres) as (results' & Hres' & Hperm).
  exists results, results'. split_and!; [done| |].
  { unfold compareObjects. by rewrite Nat.max_comm. }
  unfold diffStats. simpl.
  rewrite !(count_Permutation _ _ _ Hperm), !count_swapped. done.
Qed.

(** X13: a document against itself shows no difference.  For a JSON
    document the statistics of its comparison with itself are zero but for
    the counter [equal], which is the number of terminal values of the
    document, and with the checkbox checked the list of records is
    empty. *)
Theorem diffStats_reflexive (v : Value) :
  isJsonValue v = true →
  ∃ results,
    compareObjects v v "" = Some results
    ∧ diffStats results
      = {| addedCount := 0; removedCount := 0; modifiedCount := 0;
           equalCount := leafCount v |}
    ∧ filteredDiffs (Checked true) results = [].
Proof.
  intros Hjson.
  destruct (compareObjectsFuel_refl (S (Nat.max (height v) (height v))) v ""
              Hjson ltac:(lia)) as (results & Hres & Hleaves).
  exists results. split; [done|].
  assert (Forall (λ d, type d = equal) results) as Hequal.
  { eapply Forall2_Forall_l; [exact Hleaves|].
    apply Forall_forall. by intros x _ d [Hd _]. }
  apply Forall2_length in Hleaves.
  clear Hres. unfold diffStats, filteredDiffs, leafCount. simpl.
  rewrite <- Hleaves. clear Hleaves.
  induction Hequal as [|d results Hd _ IH]; [done|].
  rewrite !filter_cons. destruct IH as [[= IH1 IH2 IH3 IH4] IH5].
  rewrite Hd. repeat case_decide; try done. simpl.
  by rewrite IH1, IH2, IH3, IH4, IH5.
Qed.

End DerivedFacts.

(** *** Arrays of any length and content, index by index *)

Section ByIndexFacts.
Context {number host : Type} `{!Runtime number host}.

Abbreviation Value := (Value number host).
Abbreviation DiffResult := (DiffResult number host).

Local Open Scope nat_scope.

Global Instance indexKey_Inj : Inj (=) (=) indexKey.
Proof. intros i j. apply indexKey_inj. Qed.

Lemma array_keys (xs : list Value) :
  Object_keys (VArray xs) = indexKey <$> seq 0 (length xs).
Proof.
  unfold Object_keys. simpl. apply list_eq. intros i.
  rewrite !list_lookup_fmap, list_lookup_imap.
  destruct (xs !! i) as [x|] eqn:Hx; simpl.
  - apply lookup_lt_Some in Hx. by rewrite lookup_seq_lt.
  - apply lookup_ge_None in Hx. by rewrite lookup_seq_ge.
Qed.

Lemma NoDup_index_keys (j n : nat) : NoDup (indexKey <$> seq j n).
Proof. apply (NoDup_fmap_2 indexKey), NoDup_seq. Qed.

Lemma newSet_index_keys (n m : nat) :
  newSet ((indexKey <$> seq 0 n) ++ (indexKey <$> seq 0 m))
  = indexKey <$> seq 0 (Nat.max n m).
Proof.
  unfold newSet. rewrite foldl_app.
  rewrite (foldl_Set_add_fresh [] (indexKey <$> seq 0 n))
    by apply NoDup_index_keys.
  simpl.
  destruct (decide (m ≤ n)) as [Hle|Hgt].
  - rewrite Nat.max_l by done. apply foldl_Set_add_absorb.
    intros k (i & -> & Hi)%list_elem_of_fmap_1. apply list_elem_of_fmap_2.
    apply elem_of_seq in Hi. apply elem_of_seq. lia.
  - rewrite Nat.max_r by lia.
    assert (seq 0 m = seq 0 n ++ seq n (m - n)) as Hsplit.
    { replace m with (n + (m - n)) at 1 by lia. apply seq_app. }
    rewrite Hsplit, fmap_app, foldl_app.
    rewrite (foldl_Set_add_absorb (indexKey <$> seq 0 n) (indexKey <$> seq 0 n))
      by auto.
    apply foldl_Set_add_fresh. rewrite <- fmap_app, <- Hsplit.
    apply NoDup_index_keys.
Qed.

Lemma array_own (xs : list Value) (i : nat) (x : Value) :
  xs !! i = Some x →
  hasProperty (indexKey i) (VArray xs) = true
  ∧ get (VArray xs) (indexKey i) = x.
Proof.
  intros Hx.
  assert ((indexKey i, x) ∈ ownProps (VArray xs)) as Hin.
  { simpl. apply list_elem_of_lookup. exists i.
    by rewrite list_lookup_imap, Hx. }
  split.
  - apply hasProperty_own. unfold Object_keys.
    by apply (list_elem_of_fmap_2 fst) in Hin.
  - by apply get_own; [apply NoDup_array_keys|].
Qed.

Lemma element_height (xs : list Value) (i : nat) (x : Value) :
  xs !! i = Some x → height x < height (VArray xs).
Proof.
  intros Hx. apply list_elem_of_lookup_2 in Hx.
  apply (height_elem height) in Hx. simpl. lia.
Qed.

Lemma visitKey_index (xs ys : list Value) (base : string) (i : nat) :
  noIndexBeyond xs (length ys) → noIndexBeyond ys (length xs) →
  i < Nat.max (length xs) (length ys) →
  visitKey
    (compareObjectsFuel (Nat.max (height (VArray xs)) (height (VArray ys))))
    (VArray xs) (VArray ys) base (indexKey i)
  = indexEntry base xs ys i.
Proof.
  intros Hxs Hys Hi. unfold visitKey, indexEntry.
  destruct (xs !! i) as [x|] eqn:Hx, (ys !! i) as [y|] eqn:Hy.
  - destruct (array_own xs i x Hx) as [-> ->].
    destruct (array_own ys i y Hy) as [-> ->]. simpl.
    destruct (isObject x && isObject y);
      [|unfold indexRecord; by destruct (strictEq x y)].
    pose proof (element_height xs i x Hx).
    pose proof (element_height ys i y Hy).
    destruct (compareObjects_total x y (childPath base (indexKey i)))
      as [r Hr].
    rewrite Hr. simpl in *.
    eapply (compareObjectsFuel_mono _ (S _)); [|exact Hr]. lia.
  - destruct (array_own xs i x Hx) as [-> ->].
    apply lookup_ge_None in Hy. apply lookup_lt_Some in Hx.
    rewrite (Hys i) by lia. done.
  - destruct (array_own ys i y Hy) as [_ ->].
    apply lookup_ge_None in Hx. apply lookup_lt_Some in Hy.
    by rewrite (Hxs i) by lia.
  - apply lookup_ge_None in Hx, Hy. lia.
Qed.

Lemma compareObjects_by_index (xs ys : list Value) (base : string) :
  noIndexBeyond xs (length ys) → noIndexBeyond ys (length xs) →
  compareObjects (VArray xs) (VArray ys) base = compareByIndex base xs ys.
Proof.
  intros Hxs Hys.
  destruct (compareObjects_total (VArray xs) (VArray ys) base) as [r Hr].
  rewrite Hr. symmetry.
  unfold compareObjects in Hr. cbn [compareObjectsFuel] in Hr.
  apply compareBody_composite in Hr as (rs & Hrs & ->); [|done].
  rewrite !array_keys, newSet_index_keys in Hrs.
  apply Forall2_fmap_l in Hrs.
  unfold compareByIndex.
  assert (mapM (indexEntry base xs ys)
            (seq 0 (Nat.max (length xs) (length ys))) = Some rs) as ->; [|done].
  apply mapM_Some.
  apply Forall2_same_length_lookup_2; [by eapply Forall2_length|].
  intros j i pushed Hj Hp.
  pose proof (Forall2_lookup_lr _ _ _ _ _ _ Hrs Hj Hp) as Hvisit.
  simpl in Hvisit. rewrite <- Hvisit. symmetry.
  apply lookup_seq in Hj as [-> Hlt]. by apply visitKey_index.
Qed.

End ByIndexFacts.

(** ** The structural differ on the documents of the specification *)

Section DifferExamples.
Context {host : Type} `{!Runtime Z host}.

Abbreviation Value := (Value Z host).
Abbreviation DiffResult := (DiffResult Z host).

Local Open Scope string_scope.

(** C7: a type mismatch is reported as [modified] and not recursed into:
    comparing [{"a": 1}] with [{"a": {"b": 1}}] returns exactly one record,
    of kind [modified] at path ["a"], with [oldValue] [1] and [newValue]
    [{"b": 1}]; there is no record for a key of the object side. *)
Theorem compareObjects_type_mismatch :
  compareObjects
    (VObject [("a", VNumber 1)] : Value)
    (VObject [("a", VObject [("b", VNumber 1)])]) ""
  = Some [ {| path := "a"; type := modified;
              oldValue := Some (VNumber 1);
              newValue := Some (VObject [("b", VNumber 1)]) |} ].
Proof. reflexivity. Qed.

(** C8: path correctness.  Comparing [{"a": {"b": 1}}] with
    [{"a": {"b": 2}}] returns exactly one record that is not [equal]; it is
    at path ["a.b"], the parent path and the key joined by a dot, of kind
    [modified], with [oldValue] [1] and [newValue] [2]. *)
Theorem compareObjects_nested_path :
  ∃ results,
    compareObjects
      (VObject [("a", VObject [("b", VNumber 1)])] : Value)
      (VObject [("a", VObject [("b", VNumber 2)])]) ""
    = Some results
    ∧ filter (λ d, type d ≠ equal) results
      = [ {| path := "a.b"; type := modified;
             oldValue := Some (VNumber 1); newValue := Some (VNumber 2) |} ]
    ∧ childPath "a" "b" = "a" +:+ "." +:+ "b".
Proof.
  exists [ {| path := "a.b"; type := modified;
              oldValue := Some (VNumber 1); newValue := Some (VNumber 2) |} ].
  split; [|split; reflexivity].
  unfold compareObjects. simpl. unfold compareBody, forEach, visitKey. simpl.
  unfold compareBody, forEach, visitKey. simpl.
  by rewrite bool_decide_eq_false_2 by lia.
Qed.

(** C9: arrays are compared index by index, as objects whose keys are the
    index numerals, and not as sequences.  For two arrays of any lengths
    and any elements, on a runtime that supplies no property under an index
    an array lacks, the result is the list made index by index from [0] to
    the longer length: the records of the two elements where both are
    arrays or objects, one [equal] or [modified] record where they are not,
    an [added] record for an index only the new array has and a [removed]
    record for an index only the old array has.  So two arrays of one
    length whose elements are not, at any index, both arrays or objects
    yield one record per index, and comparing [[1,2]] with [[2,1]] returns
    two [modified] records, at the paths ["0"] and ["1"], and no record of
    a move. *)
Theorem compareObjects_arrays_by_index :
  (∀ (xs ys : list Value) (base : string),
     noIndexBeyond xs (length ys) → noIndexBeyond ys (length xs) →
     compareObjects (VArray xs) (VArray ys) base = compareByIndex base xs ys)
  ∧ (∀ (xs ys : list Value) (path : string),
     Forall2 (λ x y, isObject x && isObject y = false) xs ys →
     compareObjects (VArray xs) (VArray ys) path
     = Some (imap (λ i p, indexRecord path i p.1 p.2) (zip xs ys)))
  ∧ compareObjects
      (VArray [VNumber 1; VNumber 2] : Value)
      (VArray [VNumber 2; VNumber 1]) ""
    = Some [ {| path := "0"; type := modified;
                oldValue := Some (VNumber 1); newValue := Some (VNumber 2) |};
             {| path := "1"; type := modified;
                oldValue := Some (VNumber 2); newValue := Some (VNumber 1) |} ].
Proof.
  assert (∀ (xs ys : list Value) (path : string),
     Forall2 (λ x y, isObject x && isObject y = false) xs ys →
     compareObjects (VArray xs) (VArray ys) path
     = Some (imap (λ i p, indexRecord path i p.1 p.2) (zip xs ys))) as Hindex.
  { intros xs ys path Hleaves. unfold compareObjects. simpl.
    by apply compareBody_arrays. }
  split; [apply compareObjects_by_index|].
  split; [exact Hindex|].
  rewrite Hindex by (by repeat constructor).
  simpl. unfold indexRecord. simpl.
  by rewrite !bool_decide_eq_false_2 by lia.
Qed.

End DifferExamples.

(** ** The compare handler: the stated properties *)

Section HandlerClaims.
Context {number host : Type} `{!Runtime number host}.

Abbreviation Value := (Value number host).
Abbreviation State := (State number host).

Lemma strictEq_null (v : Value) : strictEq v VNull = true ↔ v = VNull.
Proof. split; [apply strictEq_true|by intros ->]. Qed.

Lemma validateJson_value (text : string) (setError : string → State → State)
    (st st' : State) (v : Value) :
  validateJson text setError st = (v, st') →
  (v ≠ VNull ↔ comparable text)
  ∧ (v ≠ VNull → JSON_parse text = Parsed v)
  ∧ (¬ decodes text → v = VNull).
Proof.
  unfold validateJson, comparable, decodes.
  destruct (decide (trim text = ""%string)) as [Hblank|Hblank].
  { intros [= <- _]. split_and!; [|done..]. split; [done|]. by intros [? _]. }
  destruct (JSON_parse text) as [parsed|[message|]] eqn:Hparse;
    intros [= <- _].
  - split_and!; [|done|].
    + split.
      * intros Hv. split; [done|]. by exists parsed.
      * intros (_ & v' & [= <-] & Hv'). done.
    + intros Hno. destruct Hno. by exists parsed.
  - split_and!; [|done..]. split; [done|]. by intros (_ & ? & ? & _).
  - split_and!; [|done..]. split; [done|]. by intros (_ & ? & ? & _).
Qed.

(** What the handler does.  It returns; it calls [compareObjects] only if
    both texts decode, namely when both texts are not blank and decode to
    a value other than [null], and then once, on the two decoded values,
    storing the records; in every other case, and so whenever a text does
    not decode, it makes no comparison, empties the stored list of records
    and hides them. *)
Theorem handleCompare_attempts_comparison (st : State) :
  ∃ st' calls,
    handleCompare st = Some (st', calls)
    ∧ (calls ≠ [] → decodes (json1 st) ∧ decodes (json2 st))
    ∧ (calls ≠ [] ↔ comparable (json1 st) ∧ comparable (json2 st))
    ∧ (calls ≠ [] →
       ∃ v1 v2,
         JSON_parse (json1 st) = Parsed v1 ∧ JSON_parse (json2 st) = Parsed v2
         ∧ calls = [(v1, v2)]
         ∧ compareObjects v1 v2 "" = Some (diffs st')
         ∧ isShowingDiffs st' = true)
    ∧ (calls = [] → diffs st' = [] ∧ isShowingDiffs st' = false)
    ∧ (¬ decodes (json1 st) ∨ ¬ decodes (json2 st) →
       calls = [] ∧ diffs st' = []).
Proof.
  unfold handleCompare.
  destruct (validateJson (json1 st) setError1 st) as [parsed1 st1] eqn:Hv1.
  destruct (validateJson (json2 st) setError2 st1) as [parsed2 st2] eqn:Hv2.
  apply validateJson_value in Hv1 as (Hcomp1 & Hparse1 & Hfail1).
  apply validateJson_value in Hv2 as (Hcomp2 & Hparse2 & Hfail2).
  destruct (strictEq parsed1 VNull) eqn:Hnull1; simpl.
  { apply strictEq_null in Hnull1.
    eexists _, []. split_and!; try done.
    split; [done|]. intros [Hc _]. by apply Hcomp1 in Hc. }
  destruct (strictEq parsed2 VNull) eqn:Hnull2; simpl.
  { apply strictEq_null in Hnull2.
    eexists _, []. split_and!; try done.
    split; [done|]. intros [_ Hc]. by apply Hcomp2 in Hc. }
  assert (parsed1 ≠ VNull) as Hp1.
  { intros Heq%strictEq_null. congruence. }
  assert (parsed2 ≠ VNull) as Hp2.
  { intros Heq%strictEq_null. congruence. }
  destruct (compareObjects_total parsed1 parsed2 ""%string) as [results Hres].
  rewrite Hres. simpl.
  eexists _, [(parsed1, parsed2)]. split_and!; try done.
  - intros _. split; eexists; eauto.
  - split; [|done]. intros _. split; [by apply Hcomp1|by apply Hcomp2].
  - intros _. exists parsed1, parsed2. split_and!; auto.
  - intros [Hno|Hno]; [apply Hfail1 in Hno|apply Hfail2 in Hno]; congruence.
Qed.

End HandlerClaims.

(** ** Facts about the string highlighter *)

Section HighlighterFacts.

Implicit Types (s oldStr newStr : string) (l : list ascii).

Lemma of_chars_app l1 l2 :
  JsString.of_chars (l1 ++ l2) = JsString.of_chars l1 +:+ JsString.of_chars l2.
Proof. induction l1 as [|c l1 IH]; simpl; [done|]. by rewrite IH. Qed.

Lemma of_chars_chars s : JsString.of_chars (JsString.chars s) = s.
Proof. apply String.string_of_list_ascii_of_string. Qed.

Lemma at_lookup s (k : Z) :
  0 ≤ k → JsString.at_ s k = JsString.chars s !! Z.to_nat k.
Proof.
  intros Hk. unfold JsString.at_.
  destruct (Z.ltb_spec k 0); [lia|done].
Qed.

(** A loop that counts up while it stays below a bound and a test holds
    stops at the first index that is the bound or fails the test. *)
Lemma while_scan (test : Z → bool) (n : Z) (fuel : nat) (i : Z) :
  (Z.to_nat (n - i) < fuel)%nat →
  ∃ r, while_ fuel (λ k, (k <? n) && test k) Z.succ i = Some r
       ∧ i ≤ r ∧ r ≤ Z.max i n
       ∧ (∀ k, i ≤ k < r → test k = true)
       ∧ (r < n → test r = false).
Proof.
  revert i. induction fuel as [|fuel IH]; intros i Hfuel; [lia|]. simpl.
  destruct (Z.ltb_spec i n) as [Hlt|Hge]; simpl.
  - destruct (test i) eqn:Htest.
    + destruct (IH (Z.succ i)) as (r & Hr & Hle & Hmax & Hall & Hstop); [lia|].
      exists r. split_and!; [done|lia|lia| |done].
      intros k Hk. destruct (decide (k = i)) as [->|Hne]; [done|].
      apply Hall. lia.
    + exists i. split_and!; [done|lia|lia| |done]. intros k Hk. lia.
  - exists i. split_and!; [done|lia|lia| |lia]. intros k Hk. lia.
Qed.

Lemma strict_eq_true (a b : option ascii) : JsString.strict_eq a b = true ↔ a = b.
Proof. unfold JsString.strict_eq. apply bool_decide_eq_true. Qed.

Lemma strict_eq_false (a b : option ascii) : JsString.strict_eq a b = false ↔ a ≠ b.
Proof. unfold JsString.strict_eq. apply bool_decide_eq_false. Qed.

(** The prefix loop returns the length of the longest common prefix. *)
Lemma prefixLoop_greatest oldStr newStr :
  ∃ prefix,
    prefixLoop oldStr newStr = Some prefix
    ∧ 0 ≤ prefix ≤ minLen oldStr newStr
    ∧ take (Z.to_nat prefix) (JsString.chars oldStr)
      = take (Z.to_nat prefix) (JsString.chars newStr)
    ∧ (∀ n, 0 ≤ n ≤ minLen oldStr newStr →
         take (Z.to_nat n) (JsString.chars oldStr)
         = take (Z.to_nat n) (JsString.chars newStr) →
         n ≤ prefix).
Proof.
  unfold prefixLoop.
  assert (0 ≤ minLen oldStr newStr) as Hmin.
  { unfold minLen, JsString.length. lia. }
  destruct (while_scan
      (λ k, JsString.strict_eq (JsString.at_ oldStr k) (JsString.at_ newStr k))
      (minLen oldStr newStr) (S (Z.to_nat (minLen oldStr newStr))) 0)
    as (p & Hp & Hle & Hmax & Hall & Hstop); [lia|].
  exists p. split_and!; [done|lia|lia| |].
  - apply list_eq. intros i.
    destruct (decide (i < Z.to_nat p)%nat) as [Hi|Hi].
    + rewrite !lookup_take_lt by done.
      specialize (Hall (Z.of_nat i) ltac:(lia)).
      apply strict_eq_true in Hall.
      rewrite !at_lookup in Hall by lia. by rewrite Nat2Z.id in Hall.
    + by rewrite !lookup_take_ge by lia.
  - intros n Hn Hagree.
    destruct (Z.le_gt_cases n p) as [|Hgt]; [done|]. exfalso.
    specialize (Hstop ltac:(lia)). apply strict_eq_false in Hstop.
    apply Hstop. rewrite !at_lookup by lia.
    apply (f_equal (λ l, l !! Z.to_nat p)) in Hagree.
    by rewrite !lookup_take_lt in Hagree by lia.
Qed.

(** The suffix loop returns the length of the longest common suffix that
    leaves the prefix alone. *)
Lemma suffixLoop_greatest oldStr newStr (prefix : Z) :
  0 ≤ prefix ≤ minLen oldStr newStr →
  ∃ suffix,
    suffixLoop oldStr newStr prefix = Some suffix
    ∧ 0 ≤ suffix ≤ minLen oldStr newStr - prefix
    ∧ drop (Z.to_nat (JsString.length oldStr - suffix)) (JsString.chars oldStr)
      = drop (Z.to_nat (JsString.length newStr - suffix)) (JsString.chars newStr)
    ∧ (∀ m, 0 ≤ m ≤ minLen oldStr newStr - prefix →
         drop (Z.to_nat (JsString.length oldStr - m)) (JsString.chars oldStr)
         = drop (Z.to_nat (JsString.length newStr - m)) (JsString.chars newStr) →
         m ≤ suffix).
Proof.
  intros Hprefix. unfold suffixLoop.
  destruct (while_scan
      (λ k, JsString.strict_eq
              (JsString.at_ oldStr (JsString.length oldStr - 1 - k))
              (JsString.at_ newStr (JsString.length newStr - 1 - k)))
      (minLen oldStr newStr - prefix)
      (S (Z.to_nat (minLen oldStr newStr - prefix))) 0)
    as (q & Hq & Hle & Hmax & Hall & Hstop); [lia|].
  assert (minLen oldStr newStr ≤ JsString.length oldStr
          ∧ minLen oldStr newStr ≤ JsString.length newStr) as [Hlo Hln].
  { unfold minLen. lia. }
  exists q. split_and!; [done|lia|lia| |].
  - apply list_eq. intros i. rewrite !lookup_drop.
    destruct (decide (i < Z.to_nat q)%nat) as [Hi|Hi].
    + specialize (Hall (q - 1 - Z.of_nat i) ltac:(lia)).
      apply strict_eq_true in Hall.
      rewrite !at_lookup in Hall by lia.
      replace (Z.to_nat (JsString.length oldStr - 1 - (q - 1 - Z.of_nat i)))
        with (Z.to_nat (JsString.length oldStr - q) + i)%nat in Hall by lia.
      by replace (Z.to_nat (JsString.length newStr - 1 - (q - 1 - Z.of_nat i)))
        with (Z.to_nat (JsString.length newStr - q) + i)%nat in Hall by lia.
    + rewrite !lookup_ge_None_2; [done|..]; unfold JsString.length in *; lia.
  - intros m Hm Hagree.
    destruct (Z.le_gt_cases m q) as [|Hgt]; [done|]. exfalso.
    specialize (Hstop ltac:(lia)). apply strict_eq_false in Hstop.
    apply Hstop. rewrite !at_lookup by lia.
    apply (f_equal (λ l, l !! Z.to_nat (m - 1 - q))) in Hagree.
    rewrite !lookup_drop in Hagree.
    replace (Z.to_nat (JsString.length oldStr - 1 - q))
      with (Z.to_nat (JsString.length oldStr - m) + Z.to_nat (m - 1 - q))%nat
      by lia.
    by replace (Z.to_nat (JsString.length newStr - 1 - q))
      with (Z.to_nat (JsString.length newStr - m) + Z.to_nat (m - 1 - q))%nat
      by lia.
Qed.

(** *** Slices *)

Lemma slice_between s (a b : Z) :
  0 ≤ a ≤ b → b ≤ JsString.length s →
  JsString.slice s a (Some b) = sliceBetween s a b.
Proof.
  intros Hab Hb. unfold JsString.slice, JsString.resolve, sliceBetween.
  destruct (Z.ltb_spec a 0); [lia|]. destruct (Z.ltb_spec b 0); [lia|].
  rewrite !Z.min_l by lia.
  destruct (Z.geb_spec a b) as [Hge|Hlt].
  - assert (a = b) as -> by lia.
    rewrite drop_ge; [done|]. rewrite length_take. lia.
  - rewrite take_drop_commute. do 3 f_equal. lia.
Qed.

Lemma slice_to_end s (a : Z) :
  0 ≤ a ≤ JsString.length s →
  JsString.slice s a None = sliceBetween s a (JsString.length s).
Proof.
  intros Ha. unfold JsString.slice, JsString.resolve, sliceBetween.
  destruct (Z.ltb_spec a 0); [lia|].
  rewrite Z.min_l by lia.
  rewrite (take_ge (JsString.chars s))
    by (unfold JsString.length; lia).
  destruct (Z.geb_spec a (JsString.length s)) as [Hge|Hlt].
  - rewrite drop_ge; [done|]. unfold JsString.length in *. lia.
  - rewrite take_ge; [done|]. rewrite length_drop.
    unfold JsString.length in *. lia.
Qed.

Lemma or_empty_id s : JsString.or_empty s = s.
Proof. unfold JsString.or_empty. by destruct (decide (s = ""%string)) as [->|]. Qed.

Lemma take_drop_parts l (p m : nat) :
  (p ≤ m)%nat → (m ≤ length l)%nat →
  drop 0 (take p l) ++ drop p (take m l) ++ drop m (take (length l) l) = l.
Proof.
  intros Hpm Hm. rewrite drop_0, firstn_all.
  rewrite <- (take_drop m l) at 4. rewrite app_assoc. f_equal.
  rewrite <- (take_drop p (take m l)) at 2. f_equal.
  rewrite take_take. f_equal. lia.
Qed.

Lemma sliceBetween_parts s (p m : Z) :
  0 ≤ p ≤ m → m ≤ JsString.length s →
  sliceBetween s 0 p +:+ sliceBetween s p m
    +:+ sliceBetween s m (JsString.length s) = s.
Proof.
  intros Hpm Hm. unfold sliceBetween.
  rewrite <- !of_chars_app. unfold JsString.length in *. rewrite Nat2Z.id.
  rewrite take_drop_parts by lia. apply of_chars_chars.
Qed.

Lemma sliceBetween_prefix oldStr newStr (p : Z) :
  take (Z.to_nat p) (JsString.chars oldStr)
    = take (Z.to_nat p) (JsString.chars newStr) →
  sliceBetween oldStr 0 p = sliceBetween newStr 0 p.
Proof. unfold sliceBetween. by intros ->. Qed.

Lemma sliceBetween_suffix oldStr newStr (q : Z) :
  drop (Z.to_nat (JsString.length oldStr - q)) (JsString.chars oldStr)
    = drop (Z.to_nat (JsString.length newStr - q)) (JsString.chars newStr) →
  sliceBetween oldStr (JsString.length oldStr - q) (JsString.length oldStr)
  = sliceBetween newStr (JsString.length newStr - q) (JsString.length newStr).
Proof.
  unfold sliceBetween. intros Hq.
  rewrite !take_ge by (unfold JsString.length; lia). by rewrite Hq.
Qed.

(** X2: the highlighter returns for every two strings.  The lengths it finds
    are those of the longest common prefix and of the longest common suffix
    beside it; [pre] and [post] are that prefix and that suffix; and on a
    side whose string is empty or longer than the suffix, the middle span
    is the slice between them and the three spans read the string. *)
Theorem getStringDiffSpans_reconstructs_beside_whole_suffix oldStr newStr :
  ∃ prefix suffix spans,
    prefixLoop oldStr newStr = Some prefix
    ∧ suffixLoop oldStr newStr prefix = Some suffix
    ∧ getStringDiffSpans oldStr newStr = Some spans
    ∧ 0 ≤ prefix ∧ 0 ≤ suffix ∧ prefix + suffix ≤ minLen oldStr newStr
    ∧ pre (oldNode spans) = sliceBetween oldStr 0 prefix
    ∧ pre (newNode spans) = sliceBetween newStr 0 prefix
    ∧ post (oldNode spans)
      = sliceBetween oldStr (JsString.length oldStr - suffix)
          (JsString.length oldStr)
    ∧ post (newNode spans)
      = sliceBetween newStr (JsString.length newStr - suffix)
          (JsString.length newStr)
    ∧ (suffix < JsString.length oldStr ∨ JsString.length oldStr = 0 →
       middle (oldNode spans)
       = sliceBetween oldStr prefix (JsString.length oldStr - suffix)
       ∧ text (oldNode spans) = oldStr)
    ∧ (suffix < JsString.length newStr ∨ JsString.length newStr = 0 →
       middle (newNode spans)
       = sliceBetween newStr prefix (JsString.length newStr - suffix)
       ∧ text (newNode spans) = newStr).
Proof.
  destruct (prefixLoop_greatest oldStr newStr)
    as (p & Hp & Hpb & Hpre & _).
  destruct (suffixLoop_greatest oldStr newStr p Hpb)
    as (q & Hq & Hqb & Hsuf & _).
  assert (minLen oldStr newStr ≤ JsString.length oldStr
          ∧ minLen oldStr newStr ≤ JsString.length newStr) as [Hlo Hln].
  { unfold minLen. lia. }
  unfold getStringDiffSpans. rewrite Hp. simpl. rewrite Hq. simpl.
  eexists p, q, _. split_and!; try done; try lia; simpl.
  - rewrite slice_between by lia. done.
  - rewrite slice_between by lia. by apply sliceBetween_prefix.
  - rewrite or_empty_id, slice_to_end by lia. done.
  - rewrite or_empty_id, slice_to_end by lia. by apply sliceBetween_suffix.
  - intros Hside.
    assert (JsString.slice oldStr p
              (JsString.or_undefined (JsString.length oldStr - q))
            = sliceBetween oldStr p (JsString.length oldStr - q)) as Hmid.
    { unfold JsString.or_undefined.
      destruct (Z.eqb_spec (JsString.length oldStr - q) 0) as [Hz|Hnz].
      - rewrite slice_to_end by lia.
        by replace (JsString.length oldStr - q) with (JsString.length oldStr)
          by lia.
      - by rewrite slice_between by lia. }
    split; [done|]. unfold text. simpl.
    rewrite Hmid, or_empty_id, slice_between, slice_to_end by lia.
    apply sliceBetween_parts; lia.
  - intros Hside.
    assert (JsString.slice newStr p
              (JsString.or_undefined (JsString.length newStr - q))
            = sliceBetween newStr p (JsString.length newStr - q)) as Hmid.
    { unfold JsString.or_undefined.
      destruct (Z.eqb_spec (JsString.length newStr - q) 0) as [Hz|Hnz].
      - rewrite slice_to_end by lia.
        by replace (JsString.length newStr - q) with (JsString.length newStr)
          by lia.
      - by rewrite slice_between by lia. }
    split; [done|]. unfold text. simpl.
    rewrite Hmid, or_empty_id, slice_between, slice_to_end by lia.
    rewrite (sliceBetween_prefix _ _ _ Hpre), (sliceBetween_suffix _ _ _ Hsuf).
    apply sliceBetween_parts; lia.
Qed.

End HighlighterFacts.

(** ** More on the string highlighter *)

Section HighlighterMore.

Implicit Types (s oldStr newStr ext : string) (l w : list ascii).

Lemma chars_app s1 s2 :
  JsString.chars (s1 +:+ s2) = JsString.chars s1 ++ JsString.chars s2.
Proof.
  unfold JsString.chars. induction s1 as [|c s1 IH]; simpl; [done|].
  by rewrite <- IH.
Qed.

Lemma chars_of_chars l : JsString.chars (JsString.of_chars l) = l.
Proof. apply String.list_ascii_of_string_of_list_ascii. Qed.

Lemma string_length_app s1 s2 :
  JsString.length (s1 +:+ s2) = JsString.length s1 + JsString.length s2.
Proof. unfold JsString.length. rewrite chars_app, length_app. lia. Qed.

Lemma string_length_nonneg s : 0 ≤ JsString.length s.
Proof. unfold JsString.length. lia. Qed.

Lemma string_length_zero s : JsString.length s = 0 → s = ""%string.
Proof.
  unfold JsString.length. intros Hlen.
  rewrite <- (of_chars_chars s).
  by destruct (JsString.chars s); [|simpl in Hlen; lia].
Qed.

Lemma sliceBetween_all s : sliceBetween s 0 (JsString.length s) = s.
Proof.
  unfold sliceBetween, JsString.length. rewrite Nat2Z.id, drop_0, firstn_all.
  apply of_chars_chars.
Qed.

Lemma sliceBetween_none s (i : Z) : sliceBetween s i i = ""%string.
Proof.
  unfold sliceBetween. rewrite drop_ge; [done|]. rewrite length_take. lia.
Qed.

Lemma minLen_comm oldStr newStr : minLen newStr oldStr = minLen oldStr newStr.
Proof. unfold minLen. lia. Qed.

Lemma getStringDiffSpans_unfold oldStr newStr (prefix suffix : Z) :
  prefixLoop oldStr newStr = Some prefix →
  suffixLoop oldStr newStr prefix = Some suffix →
  getStringDiffSpans oldStr newStr =
    Some {| oldNode :=
              mkSpanNode (JsString.slice oldStr 0 (Some prefix))
                (JsString.slice oldStr prefix
                   (JsString.or_undefined (JsString.length oldStr - suffix)))
                (JsString.or_empty
                   (JsString.slice oldStr (JsString.length oldStr - suffix) None));
            newNode :=
              mkSpanNode (JsString.slice oldStr 0 (Some prefix))
                (JsString.slice newStr prefix
                   (JsString.or_undefined (JsString.length newStr - suffix)))
                (JsString.or_empty
                   (JsString.slice oldStr (JsString.length oldStr - suffix) None))
         |}.
Proof. intros Hp Hq. unfold getStringDiffSpans. by rewrite Hp; simpl; rewrite Hq. Qed.

(** The two lengths do not depend on the order of the strings. *)
Lemma loops_comm oldStr newStr :
  ∃ prefix suffix,
    prefixLoop oldStr newStr = Some prefix
    ∧ prefixLoop newStr oldStr = Some prefix
    ∧ suffixLoop oldStr newStr prefix = Some suffix
    ∧ suffixLoop newStr oldStr prefix = Some suffix
    ∧ 0 ≤ prefix ∧ 0 ≤ suffix ∧ prefix + suffix ≤ minLen oldStr newStr
    ∧ take (Z.to_nat prefix) (JsString.chars oldStr)
      = take (Z.to_nat prefix) (JsString.chars newStr)
    ∧ drop (Z.to_nat (JsString.length oldStr - suffix)) (JsString.chars oldStr)
      = drop (Z.to_nat (JsString.length newStr - suffix)) (JsString.chars newStr).
Proof.
  destruct (prefixLoop_greatest oldStr newStr) as (p & Hp & Hpb & Hpa & Hpm).
  destruct (prefixLoop_greatest newStr oldStr) as (p' & Hp' & Hpb' & Hpa' & Hpm').
  rewrite minLen_comm in Hpb', Hpm'.
  assert (p' = p) as ->.
  { apply Z.le_antisymm; [apply Hpm|apply Hpm']; done. }
  destruct (suffixLoop_greatest oldStr newStr p Hpb) as (q & Hq & Hqb & Hqa & Hqm).
  destruct (suffixLoop_greatest newStr oldStr p) as (q' & Hq' & Hqb' & Hqa' & Hqm').
  { by rewrite minLen_comm. }
  rewrite minLen_comm in Hqb', Hqm'.
  assert (q' = q) as ->.
  { apply Z.le_antisymm; [apply Hqm|apply Hqm']; done. }
  exists p, q. split_and!; try done; lia.
Qed.

(** X1: the lengths the two loops find.  For every two strings both loops
    return; the first returns the length of their longest common prefix,
    and the second the length of their longest common suffix among those
    that, with the prefix, fit in the shorter string. *)
Theorem loops_find_longest oldStr newStr :
  ∃ prefix suffix,
    prefixLoop oldStr newStr = Some prefix
    ∧ suffixLoop oldStr newStr prefix = Some suffix
    ∧ 0 ≤ prefix ≤ minLen oldStr newStr
    ∧ 0 ≤ suffix ≤ minLen oldStr newStr - prefix
    ∧ sliceBetween oldStr 0 prefix = sliceBetween newStr 0 prefix
    ∧ (∀ n, 0 ≤ n ≤ minLen oldStr newStr →
         sliceBetween oldStr 0 n = sliceBetween newStr 0 n → n ≤ prefix)
    ∧ sliceBetween oldStr (JsString.length oldStr - suffix)
        (JsString.length oldStr)
      = sliceBetween newStr (JsString.length newStr - suffix)
          (JsString.length newStr)
    ∧ (∀ m, 0 ≤ m ≤ minLen oldStr newStr - prefix →
         sliceBetween oldStr (JsString.length oldStr - m)
           (JsString.length oldStr)
         = sliceBetween newStr (JsString.length newStr - m)
             (JsString.length newStr) →
         m ≤ suffix).
Proof.
  destruct (prefixLoop_greatest oldStr newStr) as (p & Hp & Hpb & Hpa & Hpm).
  destruct (suffixLoop_greatest oldStr newStr p Hpb) as (q & Hq & Hqb & Hqa & Hqm).
  exists p, q. split_and!; try done; try lia.
  - by apply sliceBetween_prefix.
  - intros n Hn Hagree. apply Hpm; [done|].
    unfold sliceBetween in Hagree. rewrite !drop_0 in Hagree.
    apply (f_equal JsString.chars) in Hagree.
    by rewrite !chars_of_chars in Hagree.
  - by apply sliceBetween_suffix.
  - intros m Hm Hagree. apply Hqm; [done|].
    unfold sliceBetween in Hagree.
    rewrite !take_ge in Hagree by (unfold JsString.length; lia).
    apply (f_equal JsString.chars) in Hagree.
    by rewrite !chars_of_chars in Hagree.
Qed.

Lemma getStringDiffSpans_swap_nodes oldStr newStr :
  getStringDiffSpans newStr oldStr
  = (λ spans, {| oldNode := newNode spans; newNode := oldNode spans |})
      <$> getStringDiffSpans oldStr newStr.
Proof.
  destruct (loops_comm oldStr newStr)
    as (p & q & Hp & Hp' & Hq & Hq' & Hp0 & Hq0 & Hpq & Hpre & Hsuf).
  assert (minLen oldStr newStr ≤ JsString.length oldStr
          ∧ minLen oldStr newStr ≤ JsString.length newStr) as [Hlo Hln].
  { unfold minLen. lia. }
  rewrite (getStringDiffSpans_unfold _ _ _ _ Hp Hq).
  rewrite (getStringDiffSpans_unfold _ _ _ _ Hp' Hq'). simpl.
  rewrite !slice_between, !slice_to_end by lia.
  rewrite (sliceBetween_prefix _ _ _ Hpre), (sliceBetween_suffix _ _ _ Hsuf).
  done.
Qed.

(** X3: the highlighter is symmetric.  Exchanging the two strings
    exchanges the two nodes: the old node of [(newStr, oldStr)] has the
    three spans of the new node of [(oldStr, newStr)], and conversely. *)
Theorem getStringDiffSpans_swap oldStr newStr :
  ∃ spans,
    getStringDiffSpans oldStr newStr = Some spans
    ∧ getStringDiffSpans newStr oldStr
      = Some {| oldNode := newNode spans; newNode := oldNode spans |}.
Proof.
  destruct (loops_comm oldStr newStr) as (p & q & Hp & _ & Hq & _).
  eexists. split; [exact (getStringDiffSpans_unfold _ _ _ _ Hp Hq)|].
  rewrite (getStringDiffSpans_swap_nodes oldStr newStr).
  by rewrite (getStringDiffSpans_unfold _ _ _ _ Hp Hq).
Qed.

Lemma getStringDiffSpans_append_aux oldStr ext :
  getStringDiffSpans oldStr (oldStr +:+ ext)
  = Some {| oldNode := mkSpanNode oldStr ""%string ""%string;
            newNode := mkSpanNode oldStr ext ""%string |}.
Proof.
  destruct (prefixLoop_greatest oldStr (oldStr +:+ ext))
    as (p & Hp & Hpb & _ & Hpm).
  destruct (suffixLoop_greatest oldStr (oldStr +:+ ext) p Hpb)
    as (q & Hq & Hqb & _ & _).
  pose proof (string_length_nonneg oldStr) as Hlo.
  pose proof (string_length_nonneg ext) as Hle.
  assert (minLen oldStr (oldStr +:+ ext) = JsString.length oldStr) as Hmin.
  { unfold minLen. rewrite string_length_app. lia. }
  rewrite Hmin in *.
  assert (p = JsString.length oldStr) as ->.
  { apply Z.le_antisymm; [lia|]. apply Hpm; [lia|].
    rewrite chars_app. unfold JsString.length. rewrite Nat2Z.id.
    by rewrite take_app_length, firstn_all. }
  assert (q = 0) as -> by lia.
  rewrite (getStringDiffSpans_unfold _ _ _ _ Hp Hq).
  rewrite !Z.sub_0_r, or_empty_id.
  rewrite slice_between, slice_to_end, sliceBetween_all, sliceBetween_none by lia.
  assert (JsString.slice oldStr (JsString.length oldStr)
            (JsString.or_undefined (JsString.length oldStr)) = ""%string) as ->.
  { unfold JsString.or_undefined.
    destruct (Z.eqb_spec (JsString.length oldStr) 0) as [Hz|Hnz].
    - rewrite Hz, slice_to_end by lia. rewrite Hz. apply sliceBetween_none.
    - rewrite slice_between by lia. apply sliceBetween_none. }
  assert (JsString.slice (oldStr +:+ ext) (JsString.length oldStr)
            (JsString.or_undefined (JsString.length (oldStr +:+ ext))) = ext)
    as ->; [|done].
  assert (sliceBetween (oldStr +:+ ext) (JsString.length oldStr)
            (JsString.length (oldStr +:+ ext)) = ext) as Hext.
  { unfold sliceBetween. rewrite take_ge by (unfold JsString.length; lia).
    rewrite chars_app. unfold JsString.length at 1. rewrite Nat2Z.id.
    rewrite drop_app_length. apply of_chars_chars. }
  unfold JsString.or_undefined.
  destruct (Z.eqb_spec (JsString.length (oldStr +:+ ext)) 0) as [Hz|Hnz].
  - rewrite slice_to_end by (rewrite string_length_app; lia). done.
  - rewrite slice_between by (rewrite ?string_length_app; lia). done.
Qed.

(** X4: text added or removed at the end.  When the new string is the old
    one followed by more text, the prefix span is the old string, the
    middle span of the new node is exactly the added text, and the other
    spans are empty; when text is removed at the end, the same holds with
    the two nodes exchanged.  In particular two equal strings have empty
    middles, and an empty string against [s] has [s] as the one middle. *)
Theorem getStringDiffSpans_append oldStr ext :
  getStringDiffSpans oldStr (oldStr +:+ ext)
  = Some {| oldNode := mkSpanNode oldStr ""%string ""%string;
            newNode := mkSpanNode oldStr ext ""%string |}
  ∧ getStringDiffSpans (oldStr +:+ ext) oldStr
    = Some {| oldNode := mkSpanNode oldStr ext ""%string;
              newNode := mkSpanNode oldStr ""%string ""%string |}.
Proof.
  split; [apply getStringDiffSpans_append_aux|].
  by rewrite getStringDiffSpans_swap_nodes, getStringDiffSpans_append_aux.
Qed.

(** X5: where the reconstruction fails.  When the old string is not empty
    and the new string is the old one with text put before it that starts
    with another character than the old string, the common suffix is the
    whole old string, and the old node shows the old string twice: once as
    its middle span and once as its suffix span. *)
Theorem getStringDiffSpans_doubles_whole_suffix oldStr (c : ascii) w :
  oldStr ≠ ""%string →
  JsString.at_ oldStr 0 ≠ Some c →
  getStringDiffSpans oldStr (JsString.of_chars (c :: w) +:+ oldStr)
  = Some {| oldNode := mkSpanNode ""%string oldStr oldStr;
            newNode := mkSpanNode ""%string (JsString.of_chars (c :: w)) oldStr |}.
Proof.
  intros Hne Hfirst.
  set (newStr := JsString.of_chars (c :: w) +:+ oldStr).
  assert (JsString.chars newStr = (c :: w) ++ JsString.chars oldStr) as Hnew.
  { unfold newStr. by rewrite chars_app, chars_of_chars. }
  assert (JsString.length newStr
          = Z.of_nat (length (c :: w)) + JsString.length oldStr) as Hlen.
  { unfold JsString.length. rewrite Hnew, length_app. lia. }
  assert (0 < JsString.length oldStr) as Hlo.
  { pose proof (string_length_nonneg oldStr).
    destruct (decide (JsString.length oldStr = 0)) as [Hz|]; [|lia].
    by apply string_length_zero in Hz. }
  assert (minLen oldStr newStr = JsString.length oldStr) as Hmin.
  { unfold minLen. rewrite Hlen. simpl length. lia. }
  destruct (prefixLoop_greatest oldStr newStr) as (p & Hp & Hpb & Hpa & _).
  assert (p = 0) as ->.
  { destruct (decide (p = 0)) as [|Hp0]; [done|]. exfalso.
    apply Hfirst. rewrite at_lookup by lia. change (Z.to_nat 0) with 0%nat.
    apply (f_equal (λ l, l !! 0%nat)) in Hpa.
    rewrite !lookup_take_lt in Hpa by lia.
    rewrite Hpa, Hnew. done. }
  destruct (suffixLoop_greatest oldStr newStr 0 Hpb) as (q & Hq & Hqb & _ & Hqm).
  rewrite Hmin in *.
  assert (q = JsString.length oldStr) as ->.
  { apply Z.le_antisymm; [lia|]. apply Hqm; [lia|].
    rewrite Z.sub_diag, drop_0, Hlen, Hnew.
    replace (Z.to_nat (Z.of_nat (length (c :: w)) + JsString.length oldStr
                       - JsString.length oldStr))
      with (length (c :: w)) by lia.
    by rewrite drop_app_length. }
  rewrite (getStringDiffSpans_unfold _ _ _ _ Hp Hq).
  rewrite Z.sub_diag, or_empty_id.
  assert (JsString.or_undefined 0 = None) as -> by done.
  rewrite slice_between, !slice_to_end, sliceBetween_none, sliceBetween_all by lia.
  assert (JsString.or_undefined (JsString.length newStr - JsString.length oldStr)
          = Some (Z.of_nat (length (c :: w)))) as ->.
  { unfold JsString.or_undefined. rewrite Hlen.
    destruct (Z.eqb_spec (Z.of_nat (length (c :: w)) + JsString.length oldStr
                          - JsString.length oldStr) 0) as [Hz|Hnz].
    - simpl length in Hz. lia.
    - do 2 f_equal. lia. }
  rewrite slice_between by (rewrite ?Hlen; simpl length; lia).
  unfold sliceBetween. rewrite Hnew, Nat2Z.id, take_app_length, drop_0.
  done.
Qed.

End HighlighterMore.

(** ** The handlers and the page *)

Section PageFacts.
Context {number host : Type} `{!Runtime number host}.

Abbreviation Value := (Value number host).
Abbreviation State := (State number host).

Implicit Types (st : State) (text : string).

Lemma validateJson_validated text (setError : string → State → State) st :
  validateJson text setError st
  = ((validated text).1, setError (validated text).2 st).
Proof.
  unfold validateJson, validated.
  destruct (decide (trim text = ""%string)); [done|].
  by destruct (JSON_parse text) as [parsed|[message|]].
Qed.

Lemma handleCompare_cases st :
  let v1 := (validated (json1 st)).1 in
  let v2 := (validated (json2 st)).1 in
  (v1 ≠ VNull ∧ v2 ≠ VNull
   ∧ ∃ differences,
       compareObjects v1 v2 "" = Some differences
       ∧ handleCompare st = Some (comparedState st differences, [(v1, v2)]))
  ∨ ((v1 = VNull ∨ v2 = VNull)
     ∧ handleCompare st = Some (clearedState st, [])).
Proof.
  intros v1 v2. unfold handleCompare.
  rewrite !validateJson_validated. fold v1 v2.
  destruct (strictEq v1 VNull) eqn:Hn1; simpl.
  { right. apply strictEq_true in Hn1. split; [by left|done]. }
  destruct (strictEq v2 VNull) eqn:Hn2; simpl.
  { right. apply strictEq_true in Hn2. split; [by right|done]. }
  left. split_and!.
  - intros Heq. by rewrite Heq in Hn1.
  - intros Heq. by rewrite Heq in Hn2.
  - destruct (compareObjects_total v1 v2 ""%string) as [differences Hd].
    exists differences. split; [done|]. by rewrite Hd.
Qed.

Lemma validated_value text :
  (validated text).1 ≠ VNull →
  JSON_parse text = Parsed (validated text).1
  ∧ (validated text).2 = ""%string
  ∧ trim text ≠ ""%string.
Proof.
  unfold validated.
  destruct (decide (trim text = ""%string)); [done|].
  by destruct (JSON_parse text) as [parsed|[message|]].
Qed.

Lemma validated_error text :
  (validated text).2 ≠ ""%string →
  (validated text).1 = VNull ∧ ¬ decodes text ∧ trim text ≠ ""%string.
Proof.
  unfold validated, decodes.
  destruct (decide (trim text = ""%string)); [done|].
  destruct (JSON_parse text) as [parsed|[message|]]; [done|..];
    intros _; split_and!; try done; by intros [? ?].
Qed.

(** X14: comparing twice is comparing once.  [handleCompare] returns and
    leaves the two texts as they are; called again on the state it left, it
    makes the same calls and leaves that state. *)
Theorem handleCompare_idempotent st :
  ∃ st' calls,
    handleCompare st = Some (st', calls)
    ∧ json1 st' = json1 st ∧ json2 st' = json2 st
    ∧ handleCompare st' = Some (st', calls).
Proof.
  destruct (handleCompare_cases st)
    as [(Hv1 & Hv2 & differences & Hd & Hcmp)|[Hnull Hcmp]].
  - eexists _, _. split_and!; [exact Hcmp|done|done|].
    destruct (handleCompare_cases (comparedState st differences))
      as [(_ & _ & differences' & Hd' & Hcmp')|[Hnull' Hcmp']]; simpl in *.
    + rewrite Hcmp'. unfold comparedState. simpl.
      by replace differences' with differences by congruence.
    + by destruct Hnull'.
  - eexists _, _. split_and!; [exact Hcmp|done|done|].
    destruct (handleCompare_cases (clearedState st))
      as [(H1 & H2 & _)|[_ Hcmp']]; simpl in *.
    + by destruct Hnull.
    + by rewrite Hcmp'.
Qed.

(** X15: an error and a comparison exclude each other.  After
    [handleCompare], if one of the two messages is not empty then no
    comparison was made, no record is stored and the records are not
    shown, and the text of that message is not blank and does not decode;
    a blank text leaves its message empty, whatever [JSON.parse] makes of
    it, and no comparison is made either. *)
Theorem handleCompare_error_excludes_comparison st :
  ∃ st' calls,
    handleCompare st = Some (st', calls)
    ∧ (error1 st' ≠ ""%string ∨ error2 st' ≠ ""%string →
       calls = [] ∧ diffs st' = [] ∧ isShowingDiffs st' = false)
    ∧ (error1 st' ≠ ""%string →
       ¬ decodes (json1 st) ∧ trim (json1 st) ≠ ""%string)
    ∧ (error2 st' ≠ ""%string →
       ¬ decodes (json2 st) ∧ trim (json2 st) ≠ ""%string)
    ∧ (trim (json1 st) = ""%string → error1 st' = ""%string ∧ calls = [])
    ∧ (trim (json2 st) = ""%string → error2 st' = ""%string ∧ calls = []).
Proof.
  assert (∀ text, trim text = ""%string → validated text = (VNull, ""%string))
    as Hblank.
  { intros text Ht. unfold validated. by rewrite decide_True. }
  destruct (handleCompare_cases st)
    as [(Hv1 & Hv2 & differences & Hd & Hcmp)|[Hnull Hcmp]];
    eexists _, _; (split; [exact Hcmp|]); simpl.
  - apply validated_value in Hv1 as Hok1. apply validated_value in Hv2 as Hok2.
    destruct Hok1 as (_ & He1 & Ht1), Hok2 as (_ & He2 & Ht2).
    split_and!; try (intros; congruence). intros [?|?]; congruence.
  - split_and!.
    + done.
    + intros He. by apply validated_error in He as (_ & ? & ?).
    + intros He. by apply validated_error in He as (_ & ? & ?).
    + intros Ht. by rewrite (Hblank _ Ht).
    + intros Ht. by rewrite (Hblank _ Ht).
Qed.

(** *** The states the page reaches *)

Lemma step_invariants st e :
  (validated ""%string).2 = ""%string ∨ e ≠ ClickClear →
  ∃ st',
    step st e = Some st'
    ∧ (shownInvariant st → shownInvariant st')
    ∧ (errorInvariant st → errorInvariant st').
Proof.
  intros Hclear. unfold step.
  destruct (available e st) eqn:Hav; [|by exists st].
  destruct e as [text|text| | |]; simpl in Hav.
  - exists (onChange1 text st). split; [done|].
    unfold onChange1. rewrite validateJson_validated. simpl.
    apply negb_true_iff in Hav. unfold shownInvariant, errorInvariant. simpl.
    split; [by rewrite Hav|]. by intros [_ ->].
  - exists (onChange2 text st). split; [done|].
    unfold onChange2. rewrite validateJson_validated. simpl.
    apply negb_true_iff in Hav. unfold shownInvariant, errorInvariant. simpl.
    split; [by rewrite Hav|]. by intros [-> _].
  - destruct (handleCompare_cases st)
      as [(Hv1 & Hv2 & differences & Hd & Hcmp)|[Hnull Hcmp]];
      rewrite Hcmp; simpl; eexists; (split; [done|]).
    + split; [|done]. intros _ _. simpl.
      apply validated_value in Hv1 as (Hp1 & _ & _).
      apply validated_value in Hv2 as (Hp2 & _ & _).
      eexists _, _. split_and!; [exact Hp1|exact Hp2|..|exact Hd];
        unfold parsedMemo; by rewrite ?Hp1, ?Hp2.
    + split; [by intros _ ?|done].
  - exists (handleClear st). split; [done|].
    unfold shownInvariant, errorInvariant. simpl.
    split; [done|]. intros _. by destruct Hclear as [->|?].
  - eexists. split; [done|].
    unfold shownInvariant, errorInvariant. simpl. done.
Qed.

Lemma run_invariants (events : list Event) :
  ∃ st,
    run events = Some st
    ∧ shownInvariant st
    ∧ ((validated ""%string).2 = ""%string → errorInvariant st).
Proof.
  unfold run.
  assert (shownInvariant (initialState (number:=number) (host:=host))) as Hs0
    by done.
  assert ((validated ""%string).2 = ""%string →
          errorInvariant (initialState (number:=number) (host:=host))) as He0.
  { intros Hb. by split. }
  revert Hs0 He0. generalize (initialState (number:=number) (host:=host)).
  induction events as [|e events IH] using rev_ind; intros st0 Hs0 He0.
  - by exists st0.
  - rewrite foldl_snoc. destruct (IH st0 Hs0 He0) as (st & -> & Hs & He).
    simpl.
    destruct (decide ((validated ""%string).2 = ""%string)) as [Hb|Hb].
    + destruct (step_invariants st e (or_introl Hb)) as (st' & Hst & Hs' & He').
      exists st'. split_and!; [done|by apply Hs'|]. intros _. by apply He', He.
    + assert (e = ClickClear ∨ e ≠ ClickClear) as [->|Hne]
        by (destruct e; auto).
      * exists (if available ClickClear st then handleClear st else st).
        unfold step. split_and!; [by destruct (available ClickClear st)| |done].
        destruct (available ClickClear st); [|done].
        unfold shownInvariant. simpl. done.
      * destruct (step_invariants st e (or_intror Hne)) as (st' & Hst & Hs' & _).
        exists st'. split_and!; [done|by apply Hs'|done].
Qed.


(** X17: an enabled button means two decoded texts.  On a runtime whose
    [trim] leaves the empty string empty and whose [JSON.parse] throws
    errors with a message, the two messages of every state the page
    reaches are those of its two texts, and when the compare button is
    enabled both messages are empty and both texts decode. *)
Theorem page_enabled_button_decodes (events : list Event) :
  trim ""%string = ""%string →
  (∀ text message, JSON_parse text = Throws (JsError message) →
                   message ≠ ""%string) →
  ∃ st,
    run events = Some st
    ∧ errorInvariant st
    ∧ (disabled st = false →
       error1 st = ""%string ∧ error2 st = ""%string
       ∧ decodes (json1 st) ∧ decodes (json2 st)).
Proof.
  intros Htrim Hmessage.
  assert ((validated ""%string).2 = ""%string) as Hblank.
  { unfold validated. by rewrite decide_True. }
  assert (∀ text, trim text ≠ ""%string → (validated text).2 = ""%string →
                  decodes text) as Hdecodes.
  { intros text Ht. unfold validated, decodes. rewrite decide_False by done.
    destruct (JSON_parse text) as [parsed|[message|]] eqn:Hparse; simpl.
    - intros _. by exists parsed.
    - intros ->. by destruct (Hmessage _ _ Hparse).
    - done. }
  destruct (run_invariants events) as (st & Hrun & _ & Herr).
  specialize (Herr Hblank). exists st. split_and!; [done..|].
  intros Hen. unfold disabled in Hen.
  apply orb_false_iff in Hen as [Hen He2].
  apply orb_false_iff in Hen as [Hen He1].
  apply orb_false_iff in Hen as [Ht1 Ht2].
  apply negb_false_iff, bool_decide_eq_true in He1, He2.
  apply bool_decide_eq_false in Ht1, Ht2.
  destruct Herr as [Herr1 Herr2].
  split_and!; [done..| |]; apply Hdecodes; congruence.
Qed.

End PageFacts.

(** ** The rows of the records *)

Section RenderingFacts.
Context {number host : Type} `{!Runtime number host} `{!Printing number host}.

Abbreviation Value := (Value number host).
Abbreviation DiffResult := (DiffResult number host).

Lemma getStringDiffSpans_total (oldStr newStr : string) :
  is_Some (getStringDiffSpans oldStr newStr).
Proof.
  destruct (loops_comm oldStr newStr) as (p & q & Hp & _ & Hq & _).
  rewrite (getStringDiffSpans_unfold _ _ _ _ Hp Hq). by eexists.
Qed.

Lemma renderValueWithHighlight_single (value : Value) :
  ∃ r, renderValueWithHighlight value VUndefined RoleSingle = Some r
       ∧ ∀ sign, usesHighlighter (Signed sign r) = false.
Proof.
  unfold renderValueWithHighlight.
  destruct value; simpl; repeat case_match;
    (eexists; split; [reflexivity|done]).
Qed.

Lemma renderSide_total (diff : DiffResult) (own peer : option Value) (role : Role) :
  is_Some (renderSide diff own peer role).
Proof.
  unfold renderSide. case_match.
  - unfold renderValueWithHighlight.
    destruct (field own) as [| | | |v| | |], (field peer) as [| | | |p| | |];
      simpl;
      try (destruct (getStringDiffSpans_total v p) as [spans ->]; simpl;
           by eexists);
      repeat case_match; by eexists.
  - destruct (renderValueWithHighlight_single (field own)) as (r & -> & _).
    by eexists.
Qed.

Lemma renderSide_absent (diff : DiffResult) (own peer : option Value) (role : Role) :
  oldValue diff = None ∨ newValue diff = None →
  ∃ r, renderSide diff own peer role = Some r
       ∧ ∀ sign, usesHighlighter (Signed sign r) = false.
Proof.
  intros Habsent. unfold renderSide.
  assert (bool_decide (typeof (field (oldValue diff)) = TString)
          && bool_decide (typeof (field (newValue diff)) = TString) = false)
    as ->.
  { destruct Habsent as [-> | ->]; simpl; [done|]. apply andb_false_r. }
  apply renderValueWithHighlight_single.
Qed.

(** X18: both lines of a modified string show the old string.  In the row
    of a [modified] record whose two values are strings, the line signed
    [-] and the line signed [+] carry the same three spans, those of the
    old node of the highlighter on the old and the new string; they differ
    by the colour of the middle span only, and the line signed [+] does not
    show the spans of the new string. *)
Theorem rowLines_modified_strings (at_path oldStr newStr : string) :
  ∃ spans,
    getStringDiffSpans oldStr newStr = Some spans
    ∧ rowLines {| path := at_path; type := modified;
                  oldValue := Some (VString oldStr);
                  newValue := Some (VString newStr) |}
      = Some [ Signed "- " (Highlighted Red (oldNode spans));
               Signed "+ " (Highlighted Green (oldNode spans)) ].
Proof.
  destruct (getStringDiffSpans_total oldStr newStr) as [spans Hs].
  exists spans. split; [done|].
  unfold rowLines, renderSide, renderValueWithHighlight. simpl.
  rewrite (getStringDiffSpans_swap_nodes oldStr newStr), Hs. done.
Qed.

(** X19: every row is rendered, and only a modified row can be
    highlighted.  Each record that [compareObjects] returns has its lines;
    the lines of an [added], a [removed] or an [equal] record never carry a
    node of the highlighter, whatever their values. *)
Theorem rowLines_highlight_only_modified (a b : Value) (base : string) :
  ∃ results,
    compareObjects a b base = Some results
    ∧ Forall (λ d, ∃ lines,
                rowLines d = Some lines
                ∧ (type d ≠ modified →
                   Forall (λ l, usesHighlighter l = false) lines)) results.
Proof.
  destruct (compareObjects_total a b base) as [results Hres].
  exists results. split; [done|].
  pose proof (compareObjectsFuel_invariant _ _ _ _ _ Hres) as Hinv.
  eapply Forall_impl; [exact Hinv|]. clear.
  intros d Hd. unfold recordInvariant in Hd. unfold rowLines.
  destruct (type d) eqn:Htype.
  - destruct Hd as [Hold _].
    destruct (renderSide_absent d (newValue d) (oldValue d) RoleNew)
      as (r & -> & Hr); [by left|].
    eexists. split; [done|]. intros _. by repeat constructor.
  - destruct Hd as [_ Hnew].
    destruct (renderSide_absent d (oldValue d) (newValue d) RoleOld)
      as (r & -> & Hr); [by right|].
    eexists. split; [done|]. intros _. by repeat constructor.
  - destruct (renderSide_total d (oldValue d) (newValue d) RoleOld) as [r1 ->].
    destruct (renderSide_total d (newValue d) (oldValue d) RoleNew) as [r2 ->].
    eexists. split; [done|]. done.
  - eexists. split; [done|]. intros _. by repeat constructor.
Qed.

End RenderingFacts.

(** ** The string highlighter: the stated properties *)

Section HighlighterClaims.

Local Open Scope string_scope.

(** C1: the reconstruction invariant, which asks that the three spans of
    each node read the string of its side.  On the three inputs of the
    specification the spans are the stated ones; on ["abc"] and ["xabc"],
    where the common suffix is the whole of the old string, the middle span
    of the old node is the whole string again and the node reads
    ["abcabc"], not ["abc"]. *)
Theorem getStringDiffSpans_whole_suffix :
  getStringDiffSpans "hello" "hello"
    = Some {| oldNode := mkSpanNode "hello" "" "";
              newNode := mkSpanNode "hello" "" "" |}
  ∧ getStringDiffSpans "abcXdef" "abcYdef"
    = Some {| oldNode := mkSpanNode "abc" "X" "def";
              newNode := mkSpanNode "abc" "Y" "def" |}
  ∧ getStringDiffSpans "" "abc"
    = Some {| oldNode := mkSpanNode "" "" "";
              newNode := mkSpanNode "" "abc" "" |}
  ∧ ∃ spans,
      getStringDiffSpans "abc" "xabc" = Some spans
      ∧ oldNode spans = mkSpanNode "" "abc" "abc"
      ∧ text (oldNode spans) = "abcabc"
      ∧ text (oldNode spans) ≠ "abc"
      ∧ text (newNode spans) = "xabc".
Proof.
  split_and!; [reflexivity..|].
  eexists. split_and!; [reflexivity..|done|reflexivity].
Qed.

(** C6: the algorithm of the highlighter.  On ["abc"] and ["xabc"] the
    prefix length is [0] and the suffix length is [3], the greatest ones
    within their bounds, and the slice [oldStr[0 : 3 - 3]] is empty; the
    middle span of the old node is ["abc"], because the end of the slice,
    being [0], is replaced by [undefined]. *)
Theorem oldMiddle_whole_suffix :
  prefixLoop "abc" "xabc" = Some 0%Z
  ∧ suffixLoop "abc" "xabc" 0 = Some 3%Z
  ∧ sliceBetween "abc" 0 (JsString.length "abc" - 3) = ""
  ∧ JsString.or_undefined (JsString.length "abc" - 3) = None
  ∧ ∃ spans,
      getStringDiffSpans "abc" "xabc" = Some spans
      ∧ middle (oldNode spans) = "abc"
      ∧ middle (oldNode spans)
        ≠ sliceBetween "abc" 0 (JsString.length "abc" - 3).
Proof.
  split_and!; [reflexivity..|].
  eexists. split_and!; [reflexivity..|done].
Qed.

End HighlighterClaims.

(** ** Runs on the concrete runtime *)

Section Runs.

Import Reference.

Local Open Scope string_scope.

Abbreviation State := (State Z Builtin).

(** The [in] operator sees the prototype chain: against an empty object a
    key [constructor] is not reported as added. *)
Example compareObjects_inherited_key :
  compareObjects (VObject [] : Value) (VObject [("constructor", VNumber 1)]) ""
  = Some [ {| path := "constructor"; type := modified;
              oldValue := Some (VHost (BuiltinFunction OfObject "constructor"));
              newValue := Some (VNumber 1) |} ].
Proof. reflexivity. Qed.

(** C3: the comparison is to be attempted whenever both texts decode.
    With [null] typed into both text areas of the initial page no message
    is set and the compare button is on the page and enabled, and both
    texts decode; yet [handleCompare] makes no call to [compareObjects],
    stores no record and shows nothing.  The value [null] of a document is
    taken for the [null] that [validateJson] returns for a text without a
    value. *)
Theorem handleCompare_skips_null_documents :
  ∃ st : State,
    run [ChangeJson1 "null"; ChangeJson2 "null"] = Some st
    ∧ available ClickCompare st = true
    ∧ error1 st = "" ∧ error2 st = ""
    ∧ decodes (json1 st) ∧ decodes (json2 st)
    ∧ handleCompare st = Some (st, [])
    ∧ diffs st = [] ∧ isShowingDiffs st = false.
Proof.
  exists (mkState "null" "null" "" "" false []).
  split_and!; try reflexivity; by exists VNull.
Qed.

Lemma compareObjects_reflexive_witness :
  let v : Value :=
    VObject [("a", VArray [VNumber 1; VNull]); ("b", VString "x")] in
  isJsonValue v = true
  ∧ ∃ results,
      compareObjects v v "" = Some results
      ∧ Forall (λ d, type d = equal) results
      ∧ Forall2 equalRecordOf results (leaves v)
      ∧ length results = leafCount v
      ∧ (isObject v = false → path <$> results = ["root"]).
Proof.
  split; [reflexivity|].
  apply (compareObjects_reflexive
           (VObject [("a", VArray [VNumber 1; VNull]); ("b", VString "x")])).
  reflexivity.
Defined.

Lemma compareObjects_empty_composites_witness :
  emptyComposite (VArray [] : Value) = true
  ∧ emptyComposite (VObject [] : Value) = true
  ∧ compareObjects (VArray [] : Value) (VObject []) "" = Some []
  ∧ compareObjects (VObject [("k", VArray [])] : Value)
      (VObject [("k", VObject [])]) "" = Some [].
Proof.
  split; [reflexivity|]. split; [reflexivity|].
  apply (compareObjects_empty_composites (VArray []) (VObject []) "k" "");
    reflexivity.
Defined.

Lemma compareObjects_arrays_by_index_witness :
  let xs : list Value :=
    [VObject [("id", VNumber 1)]; VNumber 2; VNumber 3] in
  let ys : list Value := [VObject [("id", VNumber 2)]; VNumber 2] in
  noIndexBeyond xs (length ys)
  ∧ noIndexBeyond ys (length xs)
  ∧ compareObjects (VArray xs) (VArray ys) "" = compareByIndex "" xs ys
  ∧ compareObjects (VArray ys) (VArray xs) "" = compareByIndex "" ys xs
  ∧ compareByIndex "" xs ys
    = Some [ {| path := "0.id"; type := modified;
                oldValue := Some (VNumber 1); newValue := Some (VNumber 2) |};
             {| path := "1"; type := equal;
                oldValue := Some (VNumber 2); newValue := Some (VNumber 2) |};
             {| path := "2"; type := removed;
                oldValue := Some (VNumber 3); newValue := None |} ]
  ∧ compareByIndex "" ys xs
    = Some [ {| path := "0.id"; type := modified;
                oldValue := Some (VNumber 2); newValue := Some (VNumber 1) |};
             {| path := "1"; type := equal;
                oldValue := Some (VNumber 2); newValue := Some (VNumber 2) |};
             {| path := "2"; type := added;
                oldValue := None; newValue := Some (VNumber 3) |} ].
Proof.
  intros xs ys.
  assert (noIndexBeyond xs (length ys)) as Hxs.
  { intros i Hi. simpl in Hi. lia. }
  assert (noIndexBeyond ys (length xs)) as Hys.
  { intros i Hi. simpl in Hi. assert (i = 2%nat) as -> by lia. reflexivity. }
  split; [exact Hxs|]. split; [exact Hys|].
  split; [exact (proj1 compareObjects_arrays_by_index xs ys "" Hxs Hys)|].
  split; [exact (proj1 compareObjects_arrays_by_index ys xs "" Hys Hxs)|].
  split; reflexivity.
Defined.

End Runs.

(** ** More runs on the concrete runtime *)

Section MoreRuns.

Import Reference.

Local Open Scope string_scope.

Lemma getStringDiffSpans_doubles_whole_suffix_witness :
  "abc" ≠ ""
  ∧ JsString.at_ "abc" 0 ≠ Some "x"%char
  ∧ getStringDiffSpans "abc" (JsString.of_chars ["x"%char] +:+ "abc")
    = Some {| oldNode := mkSpanNode "" "abc" "abc";
              newNode := mkSpanNode "" (JsString.of_chars ["x"%char]) "abc" |}.
Proof.
  split; [done|]. split; [done|].
  by apply (getStringDiffSpans_doubles_whole_suffix "abc" "x"%char []).
Defined.

Lemma compareObjects_budget_witness :
  let a : Value := VObject [("a", VArray [VNumber 1])] in
  let b : Value := VObject [("a", VArray [VNumber 2; VNull])] in
  (Nat.max (height a) (height b) < 5)%nat
  ∧ ∃ results,
      compareObjects a b "" = Some results
      ∧ compareObjectsFuel 5 a b "" = Some results.
Proof.
  intros a b. split; [simpl; lia|].
  apply (compareObjects_budget a b "" 5). simpl. lia.
Defined.

Lemma compareObjects_reports_added_removed_witness :
  let a : Value := VObject [("x", VNumber 1); ("z", VNull)] in
  let b : Value := VObject [("x", VNumber 1); ("y", VNumber 2)] in
  isObject a = true ∧ isObject b = true
  ∧ ∃ results,
      compareObjects a b "" = Some results
      ∧ (∀ key, key ∈ Object_keys b → hasProperty key a = false →
           {| path := childPath "" key; type := added;
              oldValue := None; newValue := Some (get b key) |} ∈ results)
      ∧ (∀ key, key ∈ Object_keys a → hasProperty key b = false →
           {| path := childPath "" key; type := removed;
              oldValue := Some (get a key); newValue := None |} ∈ results).
Proof.
  intros a b. split; [reflexivity|]. split; [reflexivity|].
  apply (compareObjects_reports_added_removed a b ""); reflexivity.
Defined.

Lemma compareObjects_paths_below_witness :
  let a : Value := VObject [("b", VNumber 1)] in
  let b : Value := VObject [("b", VObject [("c", VNull)])] in
  "a" ≠ ""
  ∧ ∃ results,
      compareObjects a b "a" = Some results
      ∧ Forall (λ d, pathBelow "a" (path d)) results.
Proof.
  intros a b. split; [done|].
  by apply (compareObjects_paths_below a b "a").
Defined.

Lemma diffStats_reflexive_witness :
  let v : Value := VArray [VNumber 1; VObject [("k", VString "s")]; VNull] in
  isJsonValue v = true
  ∧ ∃ results,
      compareObjects v v "" = Some results
      ∧ diffStats results
        = {| addedCount := 0; removedCount := 0; modifiedCount := 0;
             equalCount := leafCount v |}
      ∧ filteredDiffs (Checked true) results = [].
Proof.
  intros v. split; [reflexivity|].
  apply (diffStats_reflexive v). reflexivity.
Defined.

Lemma page_enabled_button_decodes_witness :
  let events := [ChangeJson1 "true"; ChangeJson2 " false"; ChangeJson2 "null"] in
  trim "" = ""
  ∧ (∀ text message, JSON_parse text = Throws (JsError message) →
                     message ≠ "")
  ∧ ∃ st : State Z Builtin,
      run events = Some st
      ∧ errorInvariant st
      ∧ (disabled st = false →
         error1 st = "" ∧ error2 st = ""
         ∧ decodes (json1 st) ∧ decodes (json2 st)).
Proof.
  intros events.
  assert (∀ text message,
            JSON_parse text = Throws (JsError message) → message ≠ "") as Hm.
  { intros text message. simpl. unfold parseLiteral.
    repeat case_decide; intros [= <-]; done. }
  split; [reflexivity|]. split; [exact Hm|].
  apply (page_enabled_button_decodes events); [reflexivity|exact Hm].
Defined.

End MoreRuns.
